(** * ssht_sampling.c: sample positions, quadrature weights and harmonic indices

    A shallow embedding of [src/c/ssht_sampling.c] (SSHT, spherical harmonic
    transforms) and the properties its specification states about it.

    - C [int] is a 32-bit two's complement integer: a [Z] with the wrap-around
      written out (module [CInt]).
    - C [double] is an abstract arithmetic [DoubleOps], so that every function
      of the file is written once, in the order of operations of the source.
      It is read in two ways: bit-exactly as IEEE 754 binary64 (module [B64],
      on [SpecFloat]; the C library's [sin], [cos] and [acos] have no
      bit-exact reading), and as the real numbers the doubles stand for
      (module [Exact]), which is the reading in which the specification's
      formulas are stated.
    - [double *] output buffers are maps from index to value.
    - the [do ... while] Newton loop of [gauleg] has no bound in the source
      and takes fuel here. *)

From Stdlib Require Import ZArith List Bool Lia Reals Lra Psatz SpecFloat.
Import ListNotations.
Local Open Scope Z_scope.

(** ** C [int] *)

Module CInt.

Definition INT_MAX : Z := 2147483647.
Definition INT_MIN : Z := -2147483648.

Definition in_range (z : Z) : Prop := INT_MIN <= z <= INT_MAX.

(** The 32-bit two's complement value of a mathematical integer. *)
Definition wrap (z : Z) : Z := (z + 2147483648) mod 4294967296 - 2147483648.

Definition add (a b : Z) : Z := wrap (a + b).
Definition sub (a b : Z) : Z := wrap (a - b).
Definition mul (a b : Z) : Z := wrap (a * b).
Definition neg (a : Z) : Z := wrap (- a).
(** [/] and [%] of C truncate towards zero. *)
Definition div (a b : Z) : Z := wrap (Z.quot a b).
Definition rem (a b : Z) : Z := Z.rem a b.

End CInt.

(** The values [lo, lo+1, ..., hi] that the counter of
    [for (k = lo; k <= hi; k++)] takes (none when [hi < lo]). *)
Definition for_le (lo hi : Z) : list Z :=
  map (fun i => lo + Z.of_nat i) (seq 0 (Z.to_nat (hi + 1 - lo))).

(** ** C [double] *)

(** The operations of [double] the source uses.  [lit m e] is the decimal
    literal [m * 10^e] ([lit 25 (-2)] is [.25], [lit 1 (-14)] is [1e-14]),
    [of_int] the conversion of an [int], [to_int] the conversion to [int].
    [dsqrt] is [sqrt] of [<math.h>], which IEEE 754 defines like the four
    operations. *)
Class DoubleOps (D : Type) : Type := {
  lit : Z -> Z -> D;
  of_int : Z -> D;
  to_int : D -> Z;
  fadd : D -> D -> D;
  fsub : D -> D -> D;
  fmul : D -> D -> D;
  fdiv : D -> D -> D;
  fneg : D -> D;
  fgt : D -> D -> bool;
  fge : D -> D -> bool;
  dsqrt : D -> D
}.

(** [sin], [cos] and [acos] of the C library, which the source calls and no
    file of the repository defines. *)
Class Libm (D : Type) : Type := {
  dsin : D -> D;
  dcos : D -> D;
  dacos : D -> D
}.

(** The macros [SSHT_PI] and [SSHT_PION2] of [ssht_types.h], which is not
    among the sources. *)
Class SshtTypes (D : Type) : Type := {
  SSHT_PI : D;
  SSHT_PION2 : D
}.

Declare Scope dbl_scope.
Delimit Scope dbl_scope with D.
Infix "+" := fadd : dbl_scope.
Infix "-" := fsub : dbl_scope.
Infix "*" := fmul : dbl_scope.
Infix "/" := fdiv : dbl_scope.
Notation "- x" := (fneg x) : dbl_scope.
Infix ">?" := fgt : dbl_scope.
Infix ">=?" := fge : dbl_scope.

(** [complex double]: real and imaginary part. *)
Record complex (D : Type) : Type := Cplx { re : D; im : D }.
Arguments Cplx {D} _ _.
Arguments re {D} _.
Arguments im {D} _.

(** A [double *] buffer: the value at each index. *)
Definition buffer (D : Type) : Type := Z -> D.

Definition store {D : Type} (a : buffer D) (i : Z) (v : D) : buffer D :=
  fun j => if j =? i then v else a j.

(** ** The functions of ssht_sampling.c *)

Section Sampling.

Context {D : Type} `{DoubleOps D} `{Libm D} `{SshtTypes D}.
Local Open Scope dbl_scope.

(** [#define ABS(x) ((x) >= 0 ? (x) : -(x))] *)
Definition ABS (x : D) : D := if x >=? of_int 0 then x else - x.

(** The imaginary unit [I] of [<complex.h>] and the arithmetic of complex
    values the source uses: negation, product with a real, and the
    conversion of a real returned as [complex double]. *)
Definition I : complex D := Cplx (lit 0 0) (lit 1 0).
Definition cneg (c : complex D) : complex D := Cplx (- re c) (- im c).
Definition cscale (c : complex D) (r : D) : complex D :=
  Cplx (re c * r) (im c * r).
Definition of_real (r : D) : complex D := Cplx r (lit 0 0).
Definition conj (c : complex D) : complex D := Cplx (re c) (- im c).

Definition ssht_sampling_weight_mw (p : Z) : complex D :=
  if (p =? 1)%Z then cscale I SSHT_PION2
  else if (p =? -1)%Z then cscale (cneg I) SSHT_PION2
  else if (CInt.rem p 2 =? 0)%Z then
    of_real (lit 2 0 / (lit 1 0 - of_int (CInt.mul p p)))
  else of_real (lit 0 0).

Definition ssht_sampling_weight_dh (theta_t : D) (L : Z) : D :=
  let w := lit 0 0 in
  let w :=
    fold_left
      (fun w k =>
         w + dsin ((lit 2 0 * of_int k + lit 1 0) * theta_t)
             / (lit 2 0 * of_int k + lit 1 0))
      (for_le 0 (CInt.sub L 1)) w in
  w * (lit 2 0 / of_int L * dsin theta_t).

(** The [for (j=1; j<=n; j++)] loop of [gauleg]: the three-term recurrence,
    on the pair [(p1, p2)]. *)
Definition legendre_step (z : D) (p : D * D) (j : Z) : D * D :=
  let '(p1, p2) := p in
  let p3 := p2 in
  let p2 := p1 in
  (((lit 2 0 * of_int j - lit 1 0) * z * p2 - (of_int j - lit 1 0) * p3)
     / of_int j,
   p2).

Definition legendre (n : Z) (z : D) : D * D :=
  fold_left (legendre_step z) (for_le 1 n) (lit 1 0, lit 0 0).

(** One pass through the body of the [do ... while]: the new [z] and [pp];
    the old [z] is the [z1] of the source. *)
Definition newton_step (n : Z) (z : D) : D * D :=
  let '(p1, p2) := legendre n z in
  let pp := of_int n * (z * p1 - p2) / (z * z - lit 1 0) in
  let z1 := z in
  (z1 - p1 / pp, pp).

Definition EPS : D := lit 1 (-14).

(** [while (ABS(z-z1) > EPS)] after a pass that took [z1] to [z]. *)
Definition again (z z1 : D) : bool := ABS (z - z1) >? EPS.

(** The [do ... while] loop, run for at most [fuel] passes: [Some (z, pp)]
    when the loop is left within them, [None] when it is still running. *)
Fixpoint newton (fuel : nat) (n : Z) (z : D) : option (D * D) :=
  match fuel with
  | O => None
  | S fuel' =>
      let '(z', pp) := newton_step n z in
      if again z' z then newton fuel' n z' else Some (z', pp)
  end.

(** The first guess of the [i]-th root. *)
Definition guess (n i : Z) : D :=
  dcos (lit 3141592654 (-9) * (of_int i - lit 25 (-2))
        / (of_int n + lit 5 (-1))).

(** The body of [for (i=1; i<=m; i++)] of [gauleg] on the two buffers. *)
Definition gauleg_body (fuel : nat) (xm xl : D) (n : Z)
    (st : option (buffer D * buffer D)) (i : Z)
  : option (buffer D * buffer D) :=
  match st with
  | None => None
  | Some (x, w) =>
      match newton fuel n (guess n i) with
      | None => None
      | Some (z, pp) =>
          let x := store x (CInt.sub i 1) (xm - xl * z) in
          let x := store x (CInt.sub (CInt.sub (CInt.add n 1) i) 1)
                     (xm + xl * z) in
          let w := store w (CInt.sub i 1)
                     (lit 2 0 * xl / ((lit 1 0 - z * z) * pp * pp)) in
          let w := store w (CInt.sub (CInt.sub (CInt.add n 1) i) 1)
                     (w (CInt.sub i 1)) in
          Some (x, w)
      end
  end.

Definition gauleg (fuel : nat) (x1 x2 : D) (x w : buffer D) (n : Z)
  : option (buffer D * buffer D) :=
  let m := CInt.div (CInt.add n 1) 2 in
  let xm := lit 5 (-1) * (x2 + x1) in
  let xl := lit 5 (-1) * (x2 - x1) in
  fold_left (gauleg_body fuel xm xl n) (for_le 1 m) (Some (x, w)).

Definition ssht_sampling_gl_thetas_weights (fuel : nat)
    (thetas weights : buffer D) (L : Z) : option (buffer D * buffer D) :=
  match gauleg fuel (- lit 1 0) (lit 1 0) thetas weights L with
  | None => None
  | Some (thetas, weights) =>
      Some (fold_left (fun th t => store th t (dacos (th t)))
              (for_le 0 (CInt.sub L 1)) thetas,
            weights)
  end.

Definition ssht_sampling_mw_t2theta (t L : Z) : D :=
  (lit 2 0 * of_int t + lit 1 0) * SSHT_PI / (lit 2 0 * of_int L - lit 1 0).

Definition ssht_sampling_mw_p2phi (p L : Z) : D :=
  lit 2 0 * of_int p * SSHT_PI / (lit 2 0 * of_int L - lit 1 0).

(** The value stored through [ind]. *)
Definition ssht_sampling_elm2ind (el m : Z) : Z :=
  CInt.add (CInt.add (CInt.mul el el) el) m.

(** The values stored through [el] and [m]. *)
Definition ssht_sampling_ind2elm (ind : Z) : Z * Z :=
  let el := to_int (dsqrt (of_int ind)) in
  let m := CInt.sub (CInt.sub ind (CInt.mul el el)) el in
  (el, m).

End Sampling.

(** ** IEEE 754 binary64 *)

Module B64.

Definition prec : Z := 53.
Definition emax : Z := 1024.
Abbreviation double := spec_float (only parsing).

(** The double nearest to an integer. *)
Definition of_Z (z : Z) : double := binary_normalize prec emax z 0 false.

(** The double nearest to [m * 10^e]; for [e < 0] it is the correctly
    rounded quotient of [m] and [10^-e], both exact in the literals of the
    source. *)
Definition literal (m e : Z) : double :=
  match e with
  | Z0 => of_Z m
  | Zpos _ => of_Z (m * 10 ^ e)
  | Zneg k => SFdiv prec emax (of_Z m) (of_Z (10 ^ Zpos k))
  end.

(** The integer part of a finite double (rounding towards zero). *)
Definition trunc (x : double) : option Z :=
  match x with
  | S754_zero _ => Some 0
  | S754_finite s m e =>
      Some (cond_Zopp s
              (match e with
               | Zneg k => Zpos m / 2 ^ Zpos k
               | _ => Zpos m * 2 ^ e
               end))
  | _ => None
  end.

(** Conversion to [int].  Of a NaN, an infinity or a value outside the
    range of [int] it is undefined in C; the value here is the one the
    conversion instruction of x86 gives. *)
Definition int_of (x : double) : Z :=
  match trunc x with
  | Some z =>
      if (CInt.INT_MIN <=? z) && (z <=? CInt.INT_MAX) then z
      else CInt.INT_MIN
  | None => CInt.INT_MIN
  end.

(** Modelled from the spec: [ssht_types.h], which defines [SSHT_PI] and
    [SSHT_PION2], is not among the sources; the spec reads them as pi and
    pi/2, and these are the doubles nearest to them. *)
Definition PI : double := S754_finite false 7074237752028440 (-51).
Definition PION2 : double := S754_finite false 7074237752028440 (-52).

#[global] Instance ops : DoubleOps double := {|
  lit := literal;
  of_int := of_Z;
  to_int := int_of;
  fadd := SFadd prec emax;
  fsub := SFsub prec emax;
  fmul := SFmul prec emax;
  fdiv := SFdiv prec emax;
  fneg := SFopp;
  fgt := fun a b => SFltb b a;
  fge := fun a b => SFleb b a;
  dsqrt := SFsqrt prec emax
|}.

#[global] Instance consts : SshtTypes double := {|
  SSHT_PI := PI;
  SSHT_PION2 := PION2
|}.

End B64.

(** ** Doubles as the real numbers they stand for *)

Module Exact.

Definition literal (m e : Z) : R :=
  match e with
  | Z0 => IZR m
  | Zpos _ => IZR (m * 10 ^ e)
  | Zneg k => (IZR m / IZR (10 ^ Zpos k))%R
  end.

(** The integer part, rounding towards zero. *)
Definition trunc (x : R) : Z :=
  if Rle_dec 0 x then Int_part x else - Int_part (- x).

Definition int_of (x : R) : Z :=
  let z := trunc x in
  if (CInt.INT_MIN <=? z) && (z <=? CInt.INT_MAX) then z else CInt.INT_MIN.

#[global] Instance ops : DoubleOps R := {|
  lit := literal;
  of_int := IZR;
  to_int := int_of;
  fadd := Rplus;
  fsub := Rminus;
  fmul := Rmult;
  fdiv := Rdiv;
  fneg := Ropp;
  fgt := fun a b => if Rgt_dec a b then true else false;
  fge := fun a b => if Rge_dec a b then true else false;
  dsqrt := sqrt
|}.

#[global] Instance libm : Libm R := {|
  dsin := sin;
  dcos := cos;
  dacos := acos
|}.

(** Modelled from the spec: [ssht_types.h] is not among the sources; the
    spec reads [SSHT_PI] as pi and [SSHT_PION2] as pi/2. *)
#[global] Instance consts : SshtTypes R := {|
  SSHT_PI := PI;
  SSHT_PION2 := (PI / 2)%R
|}.

End Exact.

(** ** Notions the properties are stated with *)

Section LoopNotions.

Context {D : Type} `{DoubleOps D}.

(** The value of [z] after [k] passes through the loop body. *)
Fixpoint iterate (k : nat) (n : Z) (z : D) : D :=
  match k with
  | O => z
  | S k' => iterate k' n (fst (newton_step n z))
  end.

End LoopNotions.

(** In the exact reading: the loop is left within [fuel] passes, with a
    result that satisfies [Q]. *)
Definition stops (fuel : nat) (n : Z) (z : R) (Q : R * R -> Prop) : Prop :=
  exists r : R * R, newton fuel n z = Some r /\ Q r.

(** The [k]-th term of the series of the Driscoll and Healy weight, as the
    spec writes it. *)
Definition dh_term (theta : R) (k : nat) : R :=
  (sin ((2 * INR k + 1) * theta) / (2 * INR k + 1))%R.

(** A binary64 value of [z] at which the loop of [gauleg] is entered in the
    counterexample to its termination: [0x1.b8d8355edd4dcp-3]. *)
Definition z_cycle : B64.double := S754_finite false 7755419593069788 (-55).

(** The middle root of the 77-point rule in binary64: the argument of [cos]
    in its first guess, [0x1.921fb54524550p+0]; the binary64 value nearest
    to the cosine of that argument, [-0x1.c306f72cece67p-33]; and the value
    the loop is left with from there, [-0x1.8p-135]. *)
Definition mid_arg : B64.double := S754_finite false 7074237752952144 (-52).

Definition mid_cos : B64.double := S754_finite true 7934554573557351 (-85).


(** Eight times the Legendre polynomial of degree 4, and its derivative. *)
Definition quartic (z : R) : R :=
  (35 * (z * z * z * z) - 30 * (z * z) + 3)%R.

Definition quartic' (z : R) : R := (20 * z * (7 * (z * z) - 3))%R.

(** What the loop leaves with near a root of the quartic: the last two
    iterates [z <= zp] within [EPS] of each other, the quartic nearly 0 at
    [zp], and [pp] the derivative of the Legendre polynomial at [zp]. *)
Definition near_root (lo hi : R) (r : R * R) : Prop :=
  exists zp : R,
    (lo <= fst r <= zp /\ zp <= hi
     /\ zp - fst r <= 1 / 100000000000000
     /\ Rabs (quartic zp) <= 4 / 10000000000000
     /\ snd r = quartic' zp / 8)%R.

(** The squares of the two positive nodes of the exact four-point rule, and
    the exact weight of the node whose square is [u]. *)
Definition u_outer : R := ((15 + 2 * sqrt 30) / 35)%R.

Definition u_inner : R := ((15 - 2 * sqrt 30) / 35)%R.

Definition gl_weight (u : R) : R := (7 / (3 * (5 * u + 3)))%R.

Section LoopsLeft.

Context {D : Type} `{DoubleOps D} `{Libm D}.

(** Each of the [(n+1)/2] Newton loops of [gauleg] with [n] points is left
    within [fuel] passes. *)
Definition loops_left (fuel : nat) (n : Z) : Prop :=
  forall i : Z, 1 <= i <= (n + 1) / 2 -> newton fuel n (guess n i) <> None.

End LoopsLeft.

(** A binary64 value that is neither an infinity nor a NaN. *)
Definition finite_double (x : B64.double) : bool :=
  match x with
  | S754_zero _ | S754_finite _ _ _ => true
  | _ => false
  end.

(** * Properties *)

(** ** C [int] and loop counters *)

Lemma wrap_in_range (z : Z) : CInt.in_range z -> CInt.wrap z = z.
Proof.
  unfold CInt.in_range, CInt.INT_MIN, CInt.INT_MAX, CInt.wrap. intros Hz.
  rewrite Z.mod_small; lia.
Qed.

Lemma wrap_range (z : Z) : CInt.in_range (CInt.wrap z).
Proof.
  unfold CInt.in_range, CInt.INT_MIN, CInt.INT_MAX, CInt.wrap.
  pose proof (Z.mod_pos_bound (z + 2147483648) 4294967296). lia.
Qed.

Lemma for_le_empty (lo hi : Z) : hi < lo -> for_le lo hi = [].
Proof.
  intros Hlt. unfold for_le.
  replace (Z.to_nat (hi + 1 - lo)) with 0%nat by lia. reflexivity.
Qed.

Lemma for_le_snoc (lo hi : Z) :
  lo <= hi -> for_le lo hi = for_le lo (hi - 1) ++ [hi].
Proof.
  intros Hle. unfold for_le.
  replace (Z.to_nat (hi + 1 - lo)) with (S (Z.to_nat (hi - 1 + 1 - lo))) by lia.
  rewrite seq_S, map_app. cbn [map Nat.add]. do 3 f_equal. lia.
Qed.

Lemma for_le_cons (lo hi : Z) :
  lo <= hi -> for_le lo hi = lo :: for_le (lo + 1) hi.
Proof.
  intros Hle. unfold for_le.
  replace (Z.to_nat (hi + 1 - lo)) with (S (Z.to_nat (hi + 1 - (lo + 1)))) by lia.
  cbn [seq map]. f_equal; [lia|].
  rewrite <- seq_shift, map_map. apply map_ext. intros i. lia.
Qed.

Lemma in_for_le (lo hi k : Z) : In k (for_le lo hi) <-> lo <= k <= hi.
Proof.
  unfold for_le. rewrite in_map_iff. split.
  - intros (i & <- & Hi). apply in_seq in Hi. lia.
  - intros Hk. exists (Z.to_nat (k - lo)). split; [lia|]. apply in_seq. lia.
Qed.

(** ** The exact reading: literals and operations *)

Module ExactFacts.

Import Exact.
Local Open Scope R_scope.

Lemma lit_int (m : Z) : lit m 0 = IZR m.
Proof. reflexivity. Qed.

Lemma lit_half : lit 5 (-1) = 1 / 2.
Proof. change (lit 5 (-1)) with (5 / 10). lra. Qed.

Lemma lit_quarter : lit 25 (-2) = 1 / 4.
Proof. change (lit 25 (-2)) with (25 / 100). lra. Qed.

Lemma lit_pi : lit 3141592654 (-9) = 3141592654 / 1000000000.
Proof. reflexivity. Qed.

Lemma EPS_val : EPS = 1 / 100000000000000.
Proof. reflexivity. Qed.

Lemma fgt_true (a b : R) : (a >? b)%D = true <-> a > b.
Proof. cbn. destruct (Rgt_dec a b); split; intros; easy. Qed.

Lemma fgt_false (a b : R) : (a >? b)%D = false <-> a <= b.
Proof. cbn. destruct (Rgt_dec a b); split; intros; try easy; lra. Qed.

Lemma ABS_Rabs (x : R) : ABS x = Rabs x.
Proof.
  unfold ABS. cbn. destruct (Rge_dec x 0).
  - symmetry. apply Rabs_right. assumption.
  - symmetry. apply Rabs_left. lra.
Qed.

End ExactFacts.

(** Unfolds the operations of [double] to those of [R]. *)
Ltac exact_ops :=
  rewrite ?ExactFacts.lit_int, ?ExactFacts.lit_half, ?ExactFacts.lit_quarter,
    ?ExactFacts.lit_pi;
  cbv [fadd fsub fmul fdiv fneg of_int dsqrt dsin dcos dacos SSHT_PI SSHT_PION2
       Exact.ops Exact.libm Exact.consts].

(** ** Angles of the MW sampling *)

Section AngleMapping.

Import Exact.
Local Open Scope R_scope.

Lemma t2theta_exact (t L : Z) :
  ssht_sampling_mw_t2theta t L = (2 * IZR t + 1) * PI / (2 * IZR L - 1).
Proof. unfold ssht_sampling_mw_t2theta. exact_ops. reflexivity. Qed.

Lemma p2phi_exact (p L : Z) :
  ssht_sampling_mw_p2phi p L = 2 * IZR p * PI / (2 * IZR L - 1).
Proof. unfold ssht_sampling_mw_p2phi. exact_ops. reflexivity. Qed.

(** C7, as the code has it, in the exact reading, where no operation on
    doubles is rounded: for a band-limit [L >= 1] and [t] in [[0, 2L-2]],
    [ssht_sampling_mw_t2theta t L] is [(2t+1) pi / (2L-1)]; the first and
    the last of these angles lie strictly between [0] and [2 pi], and two
    successive angles differ by exactly [2 pi / (2L-1)]. *)
Theorem mw_t2theta_spec (t L : Z) :
  (1 <= L)%Z -> (0 <= t <= 2 * L - 2)%Z ->
  ssht_sampling_mw_t2theta t L = (2 * IZR t + 1) * PI / (2 * IZR L - 1)
  /\ 0 < ssht_sampling_mw_t2theta 0 L < 2 * PI
  /\ 0 < ssht_sampling_mw_t2theta (2 * L - 2) L < 2 * PI
  /\ ssht_sampling_mw_t2theta (t + 1) L - ssht_sampling_mw_t2theta t L
     = 2 * PI / (2 * IZR L - 1).
Proof.
  intros HL Ht. rewrite !t2theta_exact.
  assert (HLR : 1 <= IZR L) by (apply IZR_le in HL; exact HL).
  pose proof PI_RGT_0 as Hpi.
  assert (Hd : 0 < 2 * IZR L - 1) by lra.
  rewrite minus_IZR, mult_IZR, plus_IZR.
  repeat split.
  - apply Rdiv_lt_0_compat; lra.
  - apply Rmult_lt_reg_r with (2 * IZR L - 1); [exact Hd|].
    unfold Rdiv. rewrite Rmult_assoc, Rinv_l by lra. nra.
  - apply Rdiv_lt_0_compat; nra.
  - apply Rmult_lt_reg_r with (2 * IZR L - 1); [exact Hd|].
    unfold Rdiv. rewrite Rmult_assoc, Rinv_l by lra. nra.
  - field. lra.
Qed.

Lemma mw_t2theta_spec_witness :
  ssht_sampling_mw_t2theta 1 2 = (2 * IZR 1 + 1) * PI / (2 * IZR 2 - 1)
  /\ 0 < ssht_sampling_mw_t2theta 0 2 < 2 * PI
  /\ 0 < ssht_sampling_mw_t2theta (2 * 2 - 2) 2 < 2 * PI
  /\ ssht_sampling_mw_t2theta (1 + 1) 2 - ssht_sampling_mw_t2theta 1 2
     = 2 * PI / (2 * IZR 2 - 1).
Proof. apply (mw_t2theta_spec 1 2); lia. Defined.

(** In the exact reading: for a band-limit [L >= 1] and [p] in [[0, 2L-2]],
    [ssht_sampling_mw_p2phi p L] is [2 p pi / (2L-1)], it lies in
    [[0, 2 pi)], and two successive angles differ by [2 pi / (2L-1)]. *)
Theorem mw_p2phi_spec (p L : Z) :
  (1 <= L)%Z -> (0 <= p <= 2 * L - 2)%Z ->
  ssht_sampling_mw_p2phi p L = 2 * IZR p * PI / (2 * IZR L - 1)
  /\ 0 <= ssht_sampling_mw_p2phi p L < 2 * PI
  /\ ssht_sampling_mw_p2phi (p + 1) L - ssht_sampling_mw_p2phi p L
     = 2 * PI / (2 * IZR L - 1).
Proof.
  intros HL Hp. rewrite !p2phi_exact.
  assert (HLr : 1 <= IZR L) by (apply IZR_le; exact HL).
  assert (Hp0 : 0 <= IZR p) by (apply IZR_le; lia).
  assert (Hp1 : IZR p <= 2 * IZR L - 2).
  { replace (2 * IZR L - 2) with (IZR (2 * L - 2))
      by (rewrite minus_IZR, mult_IZR; reflexivity).
    apply IZR_le. lia. }
  pose proof PI_RGT_0 as Hpi.
  assert (Hd : 0 < 2 * IZR L - 1) by lra.
  split; [reflexivity|]. split.
  - split.
    + apply Rmult_le_pos; [|apply Rlt_le, Rinv_0_lt_compat; exact Hd].
      apply Rmult_le_pos; lra.
    + apply (Rmult_lt_reg_r (2 * IZR L - 1)); [exact Hd|].
      unfold Rdiv. rewrite Rmult_assoc, Rinv_l by lra. nra.
  - rewrite plus_IZR. field. lra.
Qed.

Lemma mw_p2phi_spec_witness :
  ssht_sampling_mw_p2phi 1 2 = 2 * IZR 1 * PI / (2 * IZR 2 - 1)
  /\ 0 <= ssht_sampling_mw_p2phi 1 2 < 2 * PI
  /\ ssht_sampling_mw_p2phi (1 + 1) 2 - ssht_sampling_mw_p2phi 1 2
     = 2 * PI / (2 * IZR 2 - 1).
Proof. apply (mw_p2phi_spec 1 2); lia. Defined.

End AngleMapping.

(** C7 as stated fails in binary64, where every operation is rounded: with
    [L = 2] the angles of [t = 0] and [t = 1] differ by
    [4716158501352294 * 2^-51], and [2 pi / (2L-1)] is
    [4716158501352293 * 2^-51]. *)
Lemma mw_t2theta_spacing_binary64 :
  (ssht_sampling_mw_t2theta (D := B64.double) 1 2
   - ssht_sampling_mw_t2theta 0 2)%D
  = S754_finite false 4716158501352294 (-51)
  /\ (lit 2 0 * SSHT_PI / (lit 2 0 * of_int 2 - lit 1 0))%D
     = S754_finite false 4716158501352293 (-51)
  /\ SFeqb (ssht_sampling_mw_t2theta (D := B64.double) 1 2
            - ssht_sampling_mw_t2theta 0 2)%D
           (lit 2 0 * SSHT_PI / (lit 2 0 * of_int 2 - lit 1 0))%D
     = false.
Proof. repeat split; vm_compute; reflexivity. Qed.

(** ** Driscoll and Healy weights *)

Section WeightDH.

Import Exact.
Local Open Scope R_scope.

Lemma dh_loop_sum (theta : R) (n : nat) :
  fold_left
    (fun w k =>
       (w + dsin ((lit 2 0 * of_int k + lit 1 0) * theta)
            / (lit 2 0 * of_int k + lit 1 0))%D)
    (for_le 0 (Z.of_nat n)) (lit 0 0)
  = sum_f_R0 (dh_term theta) n.
Proof.
  induction n as [|n IH].
  - cbn [Z.of_nat]. rewrite for_le_cons, for_le_empty by lia.
    cbn [fold_left]. exact_ops. unfold dh_term. cbn [sum_f_R0 INR]. lra.
  - rewrite for_le_snoc by lia.
    replace (Z.of_nat (S n) - 1)%Z with (Z.of_nat n) by lia.
    rewrite fold_left_app, IH. cbn [fold_left sum_f_R0].
    exact_ops. unfold dh_term. rewrite <- INR_IZR_INZ. reflexivity.
Qed.

(** C3: for a band-limit [L >= 1], [ssht_sampling_weight_dh theta L] is
    [(2/L) sin(theta)] times the sum over [k = 0 .. L-1] of
    [sin((2k+1) theta) / (2k+1)]; for [theta = pi/2] and [L = 1] it is 2. *)
Theorem weight_dh_spec (theta : R) (L : Z) :
  CInt.in_range L -> (1 <= L)%Z ->
  ssht_sampling_weight_dh theta L
  = 2 / IZR L * sin theta * sum_f_R0 (dh_term theta) (Z.to_nat (L - 1))
  /\ ssht_sampling_weight_dh (PI / 2) 1 = 2.
Proof.
  assert (Hgen : forall th l, CInt.in_range l -> (1 <= l)%Z ->
    ssht_sampling_weight_dh th l
    = 2 / IZR l * sin th * sum_f_R0 (dh_term th) (Z.to_nat (l - 1))).
  { intros th l Hr Hl. unfold ssht_sampling_weight_dh, CInt.sub.
    rewrite wrap_in_range
      by (unfold CInt.in_range, CInt.INT_MIN, CInt.INT_MAX in *; lia).
    replace (l - 1)%Z with (Z.of_nat (Z.to_nat (l - 1))) at 1 by lia.
    rewrite dh_loop_sum. exact_ops. ring. }
  intros Hr HL. split; [apply Hgen; assumption|].
  rewrite Hgen by (unfold CInt.in_range, CInt.INT_MIN, CInt.INT_MAX; lia).
  cbn [Z.sub Z.add Z.opp Z.pos_sub Z.to_nat sum_f_R0]. unfold dh_term.
  cbn [INR]. replace ((2 * 0 + 1) * (PI / 2)) with (PI / 2) by lra.
  rewrite sin_PI2. lra.
Qed.

Lemma weight_dh_spec_witness :
  ssht_sampling_weight_dh 1 2
  = 2 / IZR 2 * sin 1 * sum_f_R0 (dh_term 1) (Z.to_nat (2 - 1))
  /\ ssht_sampling_weight_dh (PI / 2) 1 = 2.
Proof.
  apply (weight_dh_spec 1 2);
    unfold CInt.in_range, CInt.INT_MIN, CInt.INT_MAX; lia.
Defined.

End WeightDH.

(** ** Weights of the toroidal extension *)

Lemma wrap_eqm (a b : Z) :
  (a - b) mod 4294967296 = 0 -> CInt.wrap a = CInt.wrap b.
Proof.
  intros Hab. unfold CInt.wrap. f_equal.
  apply Z.mod_divide in Hab; [|lia]. destruct Hab as [k Hk].
  replace (a + 2147483648) with (b + 2147483648 + k * 4294967296) by lia.
  apply Z.mod_add. lia.
Qed.

Lemma wrap_wrap_sub (a : Z) : (CInt.wrap a - a) mod 4294967296 = 0.
Proof.
  unfold CInt.wrap.
  rewrite (Z.mod_eq (a + 2147483648) 4294967296) by lia.
  replace (a + 2147483648
           - 4294967296 * ((a + 2147483648) / 4294967296) - 2147483648 - a)
    with (- ((a + 2147483648) / 4294967296) * 4294967296) by lia.
  apply Z.mod_mul. lia.
Qed.

Lemma mul_neg_neg (p : Z) :
  CInt.mul (CInt.neg p) (CInt.neg p) = CInt.mul p p.
Proof.
  unfold CInt.mul, CInt.neg. apply wrap_eqm.
  pose proof (wrap_wrap_sub (- p)) as Hw.
  apply Z.mod_divide in Hw; [|lia]. destruct Hw as [k Hk].
  replace (CInt.wrap (- p)) with (- p + k * 4294967296) by lia.
  replace ((- p + k * 4294967296) * (- p + k * 4294967296) - p * p)
    with ((k * k * 4294967296 - 2 * p * k) * 4294967296) by ring.
  apply Z.mod_mul. lia.
Qed.

Lemma rem2_neg (p : Z) :
  (CInt.rem (CInt.neg p) 2 =? 0) = (CInt.rem p 2 =? 0).
Proof.
  unfold CInt.rem, CInt.neg.
  pose proof (wrap_wrap_sub (- p)) as Hw.
  apply Z.mod_divide in Hw; [|lia]. destruct Hw as [k Hk].
  replace (CInt.wrap (- p)) with (- p + k * 4294967296) by lia.
  pose proof (Z.rem_bound_abs (- p + k * 4294967296) 2).
  pose proof (Z.rem_bound_abs p 2).
  pose proof (Z.quot_rem' (- p + k * 4294967296) 2).
  pose proof (Z.quot_rem' p 2).
  destruct (Z.eqb_spec (Z.rem (- p + k * 4294967296) 2) 0);
    destruct (Z.eqb_spec (Z.rem p 2) 0); try reflexivity; lia.
Qed.

Lemma rem2_even (p : Z) : (CInt.rem p 2 =? 0) = Z.even p.
Proof.
  unfold CInt.rem.
  pose proof (Z.quot_rem' p 2) as Hq.
  pose proof (Z.rem_bound_abs p 2).
  destruct (Z.eqb_spec (Z.rem p 2) 0) as [E|E].
  - symmetry. apply Z.even_spec. exists (Z.quot p 2). lia.
  - symmetry. apply Bool.not_true_is_false. intros Hev.
    apply Z.even_spec in Hev. destruct Hev as [k Hk]. lia.
Qed.

Section WeightMW.

Import Exact.
Local Open Scope R_scope.

Lemma weight_mw_1 : ssht_sampling_weight_mw 1 = Cplx 0 (PI / 2).
Proof.
  unfold ssht_sampling_weight_mw, cscale, I. cbn [Z.eqb Pos.eqb re im].
  exact_ops. f_equal; lra.
Qed.

Lemma weight_mw_m1 : ssht_sampling_weight_mw (-1) = Cplx 0 (- (PI / 2)).
Proof.
  unfold ssht_sampling_weight_mw, cscale, cneg, I.
  cbn [Z.eqb Pos.eqb re im]. exact_ops. f_equal; lra.
Qed.

Lemma weight_mw_even (p : Z) :
  Z.even p = true ->
  ssht_sampling_weight_mw p = Cplx (2 / (1 - IZR (CInt.mul p p))) 0.
Proof.
  intros Hev. unfold ssht_sampling_weight_mw, of_real.
  destruct (Z.eqb_spec p 1) as [->|_]; [discriminate|].
  destruct (Z.eqb_spec p (-1)) as [->|_]; [discriminate|].
  rewrite rem2_even, Hev. exact_ops. reflexivity.
Qed.

Lemma weight_mw_odd (p : Z) :
  Z.even p = false -> p <> 1%Z -> p <> (-1)%Z ->
  ssht_sampling_weight_mw p = Cplx 0 0.
Proof.
  intros Hod H1 Hm1. unfold ssht_sampling_weight_mw, of_real.
  destruct (Z.eqb_spec p 1) as [|_]; [contradiction|].
  destruct (Z.eqb_spec p (-1)) as [|_]; [contradiction|].
  rewrite rem2_even, Hod. exact_ops. reflexivity.
Qed.

Lemma mul_small (p : Z) :
  (-46340 <= p <= 46340)%Z -> CInt.mul p p = (p * p)%Z.
Proof.
  intros Hp. unfold CInt.mul. apply wrap_in_range.
  unfold CInt.in_range, CInt.INT_MIN, CInt.INT_MAX. nia.
Qed.

(** C2, as the code has it: for every [int] [p],
    [ssht_sampling_weight_mw p] is [i pi/2] for [p = 1], [-i pi/2] for
    [p = -1] and [0] for every other odd [p]; for an even [p] whose square is
    an [int] ([|p| <= 46340]) it is the real [2/(1 - p^2)]; at 0, 2 and 3 it
    is 2, -2/3 and 0. *)
Theorem weight_mw_spec (p : Z) :
  (p = 1%Z -> ssht_sampling_weight_mw p = Cplx 0 (PI / 2))
  /\ (p = (-1)%Z -> ssht_sampling_weight_mw p = Cplx 0 (- (PI / 2)))
  /\ (Z.even p = true -> (-46340 <= p <= 46340)%Z ->
      ssht_sampling_weight_mw p = Cplx (2 / (1 - IZR p * IZR p)) 0)
  /\ (Z.odd p = true -> p <> 1%Z -> p <> (-1)%Z ->
      ssht_sampling_weight_mw p = Cplx 0 0)
  /\ ssht_sampling_weight_mw 0 = Cplx 2 0
  /\ ssht_sampling_weight_mw 2 = Cplx (- 2 / 3) 0
  /\ ssht_sampling_weight_mw 3 = Cplx 0 0.
Proof.
  split; [|split; [|split; [|split; [|split; [|split]]]]].
  - intros ->. apply weight_mw_1.
  - intros ->. apply weight_mw_m1.
  - intros Hev Hp. rewrite weight_mw_even, mul_small, mult_IZR by assumption.
    reflexivity.
  - intros Hod H1 Hm1. apply weight_mw_odd; try assumption.
    rewrite <- Z.negb_odd, Hod. reflexivity.
  - rewrite weight_mw_even by reflexivity.
    change (CInt.mul 0 0) with 0%Z. f_equal. lra.
  - rewrite weight_mw_even by reflexivity.
    change (CInt.mul 2 2) with 4%Z. f_equal. lra.
  - apply weight_mw_odd; [reflexivity|lia|lia].
Qed.

Lemma weight_mw_spec_witness :
  (46340%Z = 1%Z -> ssht_sampling_weight_mw 46340 = Cplx 0 (PI / 2))
  /\ (46340%Z = (-1)%Z ->
      ssht_sampling_weight_mw 46340 = Cplx 0 (- (PI / 2)))
  /\ (Z.even 46340 = true -> (-46340 <= 46340 <= 46340)%Z ->
      ssht_sampling_weight_mw 46340
      = Cplx (2 / (1 - IZR 46340 * IZR 46340)) 0)
  /\ (Z.odd 46340 = true -> 46340%Z <> 1%Z -> 46340%Z <> (-1)%Z ->
      ssht_sampling_weight_mw 46340 = Cplx 0 0)
  /\ ssht_sampling_weight_mw 0 = Cplx 2 0
  /\ ssht_sampling_weight_mw 2 = Cplx (- 2 / 3) 0
  /\ ssht_sampling_weight_mw 3 = Cplx 0 0.
Proof. exact (weight_mw_spec 46340). Defined.

(** C2 as stated fails where [p*p] leaves the range of [int]: 65536 is
    even, its square wraps to 0, and the weight returned is 2, not
    [2/(1 - 65536^2)]. *)
Lemma weight_mw_overflow :
  CInt.in_range 65536 /\ Z.even 65536 = true
  /\ ssht_sampling_weight_mw 65536 = Cplx 2 0
  /\ ssht_sampling_weight_mw 65536
     <> Cplx (2 / (1 - IZR 65536 * IZR 65536)) 0.
Proof.
  assert (Hw : ssht_sampling_weight_mw 65536 = Cplx 2 0).
  { rewrite weight_mw_even by reflexivity.
    change (CInt.mul 65536 65536) with 0%Z. f_equal. lra. }
  repeat split.
  - unfold CInt.INT_MIN. lia.
  - unfold CInt.INT_MAX. lia.
  - exact Hw.
  - rewrite Hw. intros Heq. injection Heq as Heq.
    assert (Hd : 1 - 65536 * 65536 <> 0) by lra.
    apply (f_equal (fun x => x * (1 - 65536 * 65536))) in Heq.
    unfold Rdiv in Heq. rewrite Rmult_assoc, Rinv_l in Heq by exact Hd. lra.
Qed.

(** C10: for every [int] [p], the weight at [-p] is the complex conjugate
    of the weight at [p]. *)
Theorem weight_mw_conj (p : Z) :
  CInt.in_range p ->
  ssht_sampling_weight_mw (CInt.neg p) = conj (ssht_sampling_weight_mw p).
Proof.
  intros Hp.
  destruct (Z.eq_dec p 1) as [->|H1].
  { change (CInt.neg 1) with (-1)%Z. rewrite weight_mw_1, weight_mw_m1.
    reflexivity. }
  destruct (Z.eq_dec p (-1)) as [->|Hm1].
  { change (CInt.neg (-1)) with 1%Z. rewrite weight_mw_1, weight_mw_m1.
    unfold conj. cbn [re im]. exact_ops. f_equal. lra. }
  assert (Hn1 : CInt.neg p <> 1%Z /\ CInt.neg p <> (-1)%Z).
  { unfold CInt.neg, CInt.wrap, CInt.in_range, CInt.INT_MIN, CInt.INT_MAX in *.
    destruct (Z.eq_dec p (-2147483648)) as [->|Hmin].
    - cbn. lia.
    - rewrite Z.mod_small by lia. lia. }
  destruct Hn1 as [Hn1 Hnm1].
  assert (Hpar : Z.even (CInt.neg p) = Z.even p)
    by (rewrite <- !rem2_even; apply rem2_neg).
  destruct (Z.even p) eqn:Hev.
  - rewrite (weight_mw_even (CInt.neg p)), (weight_mw_even p), mul_neg_neg
      by assumption.
    unfold conj. cbn [re im]. exact_ops. f_equal. lra.
  - rewrite (weight_mw_odd (CInt.neg p)), (weight_mw_odd p) by assumption.
    unfold conj. cbn [re im]. exact_ops. f_equal. lra.
Qed.

Lemma weight_mw_conj_witness :
  ssht_sampling_weight_mw (CInt.neg 2) = conj (ssht_sampling_weight_mw 2).
Proof.
  apply (weight_mw_conj 2).
  unfold CInt.in_range, CInt.INT_MIN, CInt.INT_MAX. lia.
Defined.

End WeightMW.

(** In binary64, bit for bit: the weights at 0, 2 and 3 are [2.0],
    [-2.0/3.0] and [0.0], with imaginary part [0.0]. *)
Theorem weight_mw_binary64 :
  ssht_sampling_weight_mw (D := B64.double) 0 = Cplx (lit 2 0) (lit 0 0)
  /\ ssht_sampling_weight_mw (D := B64.double) 2
     = Cplx (- lit 2 0 / lit 3 0)%D (lit 0 0)
  /\ ssht_sampling_weight_mw (D := B64.double) 3
     = Cplx (lit 0 0) (lit 0 0).
Proof. repeat split; vm_compute; reflexivity. Qed.

(** ** The Newton loop of gauleg *)

Section NewtonLoop.

Context {D : Type} `{DoubleOps D} `{Libm D}.

Lemma iterate_S (k : nat) (n : Z) (z : D) :
  iterate (S k) n z = fst (newton_step n (iterate k n z)).
Proof.
  revert z. induction k as [|k IH]; intros z; [reflexivity|].
  change (iterate (S (S k)) n z)
    with (iterate (S k) n (fst (newton_step n z))).
  rewrite IH. reflexivity.
Qed.

Lemma newton_S (fuel : nat) (n : Z) (z : D) :
  newton (S fuel) n z
  = if again (fst (newton_step n z)) z
    then newton fuel n (fst (newton_step n z))
    else Some (newton_step n z).
Proof. cbn [newton]. destruct (newton_step n z) as [z' pp]. reflexivity. Qed.

(** The loop as the code has it, with no bound on its passes and no error
    result: within [fuel] passes it is left exactly when some pass
    [k < fuel] is the first whose step [z - z1] is not above [EPS], and
    what it leaves with is the [z] and [pp] of that pass. *)
Theorem newton_exit (fuel : nat) (n : Z) (z : D) (r : D * D) :
  newton fuel n z = Some r
  <-> exists k : nat,
        (k < fuel)%nat
        /\ (forall j : nat, (j < k)%nat ->
              again (iterate (S j) n z) (iterate j n z) = true)
        /\ again (iterate (S k) n z) (iterate k n z) = false
        /\ r = newton_step n (iterate k n z).
Proof.
  revert z. induction fuel as [|fuel IH]; intros z.
  - split; [discriminate|]. intros (k & Hk & _). lia.
  - rewrite newton_S.
    destruct (again (fst (newton_step n z)) z) eqn:Hag.
    + rewrite IH. split.
      * intros (k & Hk & Hbefore & Hat & Hr). exists (S k).
        split; [lia|]. split; [|split].
        -- intros [|j] Hj; [exact Hag|]. apply (Hbefore j). lia.
        -- exact Hat.
        -- exact Hr.
      * intros (k & Hk & Hbefore & Hat & Hr). destruct k as [|k].
        -- cbn [iterate] in Hat. congruence.
        -- exists k. split; [lia|]. split; [|split].
           ++ intros j Hj. apply (Hbefore (S j)). lia.
           ++ exact Hat.
           ++ exact Hr.
    + split.
      * intros [= <-]. exists 0%nat. split; [lia|]. split; [|split].
        -- intros j Hj. lia.
        -- exact Hag.
        -- reflexivity.
      * intros (k & Hk & Hbefore & Hat & Hr). destruct k as [|k].
        -- rewrite Hr. reflexivity.
        -- specialize (Hbefore 0%nat ltac:(lia)). cbn [iterate] in Hbefore.
           congruence.
Qed.

Lemma gauleg_body_None (fuel : nat) (xm xl : D) (n : Z) (l : list Z) :
  fold_left (gauleg_body fuel xm xl n) l None = None.
Proof. induction l as [|i l IH]; [reflexivity|exact IH]. Qed.


End NewtonLoop.

(** In binary64 the loop entered with [n = 5] and [z = z_cycle] never leaves:
    one pass takes [z] to [-z], the next takes [-z] back to [z], and
    [|z - z1| = 2|z|] is above [EPS] each time. *)
Lemma newton_step_cycle :
  fst (newton_step 5 z_cycle) = SFopp z_cycle
  /\ fst (newton_step 5 (SFopp z_cycle)) = z_cycle
  /\ again (SFopp z_cycle) z_cycle = true
  /\ again z_cycle (SFopp z_cycle) = true.
Proof. repeat split; vm_compute; reflexivity. Qed.

Lemma newton_cycle (fuel : nat) :
  newton fuel 5 z_cycle = None /\ newton fuel 5 (SFopp z_cycle) = None.
Proof.
  destruct newton_step_cycle as (H1 & H2 & H3 & H4).
  induction fuel as [|fuel [IH1 IH2]]; [split; reflexivity|].
  rewrite !newton_S, H1, H2, H3, H4. split; assumption.
Qed.

(** No number of passes bounds the loop over all the states it can be
    entered in; [z_cycle] is not one of the guesses of [gauleg]. *)
Lemma newton_unbounded :
  ~ (exists maxit : nat,
       forall (n : Z) (z : B64.double), newton maxit n z <> None).
Proof.
  intros [maxit Hmax]. apply (Hmax 5 z_cycle). apply newton_cycle.
Qed.

(** ** Band-limits that are not positive *)

Section BandLimit.

Import Exact.
Local Open Scope R_scope.

Lemma weight_dh_negative (theta : R) (L : Z) :
  (CInt.INT_MIN < L < 0)%Z -> ssht_sampling_weight_dh theta L = 0.
Proof.
  intros HL. unfold ssht_sampling_weight_dh, CInt.sub.
  rewrite wrap_in_range
    by (unfold CInt.in_range, CInt.INT_MIN, CInt.INT_MAX in *; lia).
  rewrite for_le_empty by lia. cbn [fold_left]. exact_ops. ring.
Qed.

Lemma quot2_nonpositive (a : Z) :
  (a <= 1)%Z -> (-2147483648 <= a)%Z -> (-2147483648 <= a ÷ 2 <= 0)%Z.
Proof.
  intros Hhi Hlo. pose proof (Z.quot_rem' a 2) as Hqr.
  destruct (Z_le_gt_dec 0 a) as [Hpos|Hneg].
  - pose proof (Z.rem_bound_pos a 2 ltac:(lia) ltac:(lia)). lia.
  - pose proof (Z.rem_bound_pos_neg a 2 ltac:(lia) ltac:(lia)). lia.
Qed.

Lemma gl_thetas_weights_nonpositive (fuel : nat) (thetas weights : buffer R)
    (L : Z) :
  (CInt.INT_MIN < L <= 0)%Z ->
  ssht_sampling_gl_thetas_weights fuel thetas weights L
  = Some (thetas, weights).
Proof.
  intros HL. unfold ssht_sampling_gl_thetas_weights, gauleg.
  unfold CInt.div, CInt.add, CInt.sub, CInt.INT_MIN in *.
  rewrite (wrap_in_range (L + 1))
    by (unfold CInt.in_range, CInt.INT_MIN, CInt.INT_MAX; lia).
  pose proof (quot2_nonpositive (L + 1) ltac:(lia) ltac:(lia)) as Hq.
  rewrite (wrap_in_range ((L + 1) ÷ 2))
    by (unfold CInt.in_range, CInt.INT_MIN, CInt.INT_MAX; lia).
  rewrite (for_le_empty 1) by lia. cbn [fold_left].
  rewrite wrap_in_range
    by (unfold CInt.in_range, CInt.INT_MIN, CInt.INT_MAX; lia).
  rewrite for_le_empty by lia. reflexivity.
Qed.

(** C8, as the code has it: no function checks its band-limit or reports
    an error.  For an [int] [L <= 0] the two angle functions return the value
    of their formula at that [L], the Driscoll and Healy weight of [L < 0] is
    the empty sum 0, and the Gauss-Legendre routine returns with both buffers
    as they were. *)
Theorem band_limit_unchecked (t p L : Z) (theta : R) (fuel : nat)
    (thetas weights : buffer R) :
  (CInt.INT_MIN < L <= 0)%Z ->
  ssht_sampling_mw_t2theta t L = (2 * IZR t + 1) * PI / (2 * IZR L - 1)
  /\ ssht_sampling_mw_p2phi p L = 2 * IZR p * PI / (2 * IZR L - 1)
  /\ ((L < 0)%Z -> ssht_sampling_weight_dh theta L = 0)
  /\ ssht_sampling_gl_thetas_weights fuel thetas weights L
     = Some (thetas, weights).
Proof.
  intros HL. split; [apply t2theta_exact|]. split; [apply p2phi_exact|].
  split.
  - intros Hneg. apply weight_dh_negative. lia.
  - apply gl_thetas_weights_nonpositive. exact HL.
Qed.

Lemma band_limit_unchecked_witness :
  ssht_sampling_mw_t2theta 0 (-1) = (2 * IZR 0 + 1) * PI / (2 * IZR (-1) - 1)
  /\ ssht_sampling_mw_p2phi 1 (-1) = 2 * IZR 1 * PI / (2 * IZR (-1) - 1)
  /\ ((-1 < 0)%Z -> ssht_sampling_weight_dh 1 (-1) = 0)
  /\ ssht_sampling_gl_thetas_weights 0 (fun _ => 0) (fun _ => 0) (-1)
     = Some (fun _ => 0, fun _ => 0).
Proof.
  apply (band_limit_unchecked 0 1 (-1) 1 0 (fun _ => 0) (fun _ => 0)).
  unfold CInt.INT_MIN. lia.
Defined.

(** C8 as stated fails: with the band-limit 0 the angle functions return
    [-pi] and [-2 pi], values computed from it, and report nothing. *)
Lemma band_limit_zero_returns :
  ssht_sampling_mw_t2theta 0 0 = - PI
  /\ ssht_sampling_mw_p2phi 1 0 = - (2 * PI).
Proof.
  rewrite t2theta_exact, p2phi_exact. split; field.
Qed.

End BandLimit.

(** ** Gauss-Legendre nodes and weights *)

Lemma gauleg_indices (n i : Z) :
  1 <= n < CInt.INT_MAX -> 1 <= i <= n ->
  CInt.sub i 1 = i - 1
  /\ CInt.sub (CInt.sub (CInt.add n 1) i) 1 = n - i.
Proof.
  unfold CInt.INT_MAX. intros Hn Hi. unfold CInt.sub, CInt.add.
  rewrite (wrap_in_range (n + 1))
    by (unfold CInt.in_range, CInt.INT_MIN, CInt.INT_MAX; lia).
  rewrite (wrap_in_range (n + 1 - i))
    by (unfold CInt.in_range, CInt.INT_MIN, CInt.INT_MAX; lia).
  rewrite !wrap_in_range
    by (unfold CInt.in_range, CInt.INT_MIN, CInt.INT_MAX; lia).
  lia.
Qed.

Lemma gauleg_half (n : Z) :
  0 <= n < CInt.INT_MAX -> CInt.div (CInt.add n 1) 2 = (n + 1) / 2.
Proof.
  unfold CInt.INT_MAX. intros Hn. unfold CInt.div, CInt.add.
  rewrite (wrap_in_range (n + 1))
    by (unfold CInt.in_range, CInt.INT_MIN, CInt.INT_MAX; lia).
  rewrite Z.quot_div_nonneg by lia.
  apply wrap_in_range. unfold CInt.in_range, CInt.INT_MIN, CInt.INT_MAX.
  pose proof (Z.div_pos (n + 1) 2 ltac:(lia) ltac:(lia)).
  pose proof (Z.div_le_upper_bound (n + 1) 2 2147483647 ltac:(lia) ltac:(lia)).
  lia.
Qed.

(** *** The entries [gauleg] writes *)

Section GaulegFrame.

Context {D : Type} `{DoubleOps D} `{Libm D}.

Lemma gauleg_prefix_frame (fuel : nat) (xm xl : D) (n : Z)
    (x w : buffer D) (k : nat) :
  1 <= n < CInt.INT_MAX -> Z.of_nat k <= (n + 1) / 2 ->
  forall x' w' : buffer D,
    fold_left (gauleg_body fuel xm xl n) (for_le 1 (Z.of_nat k)) (Some (x, w))
    = Some (x', w') ->
    forall j : Z, j < 0 \/ n <= j -> x' j = x j /\ w' j = w j.
Proof.
  intros Hn. induction k as [|k IH]; intros Hk x' w' Hrun j Hj.
  - rewrite for_le_empty in Hrun by lia. cbn [fold_left] in Hrun.
    injection Hrun as <- <-. split; reflexivity.
  - assert (Hhalf : 2 * ((n + 1) / 2) <= n + 1)
      by (apply Z.mul_div_le; lia).
    assert (HSk : Z.of_nat (S k) = Z.of_nat k + 1) by lia.
    rewrite HSk in *. clear HSk.
    rewrite for_le_snoc in Hrun by lia.
    replace (Z.of_nat k + 1 - 1) with (Z.of_nat k) in Hrun by lia.
    rewrite fold_left_app in Hrun. cbn [fold_left] in Hrun.
    destruct (fold_left (gauleg_body fuel xm xl n) (for_le 1 (Z.of_nat k))
                (Some (x, w))) as [[xk wk]|] eqn:Hprev; [|discriminate].
    specialize (IH ltac:(lia) xk wk eq_refl j Hj).
    unfold gauleg_body in Hrun.
    destruct (newton fuel n (guess n (Z.of_nat k + 1))) as [[z pp]|];
      [|discriminate].
    destruct (gauleg_indices n (Z.of_nat k + 1) Hn ltac:(lia)) as [Hi1 Hi2].
    rewrite Hi1, Hi2 in Hrun. injection Hrun as <- <-.
    unfold store.
    destruct (Z.eqb_spec j (n - (Z.of_nat k + 1))) as [E|_]; [lia|].
    destruct (Z.eqb_spec j (Z.of_nat k + 1 - 1)) as [E|_]; [lia|].
    exact IH.
Qed.

(** [gauleg] writes [x[0 .. n-1]] and [w[0 .. n-1]] and nothing else, in
    whatever arithmetic the doubles are read. *)
Theorem gauleg_in_bounds (fuel : nat) (x1 x2 : D) (n : Z)
    (x w x' w' : buffer D) :
  1 <= n < CInt.INT_MAX ->
  gauleg fuel x1 x2 x w n = Some (x', w') ->
  forall j : Z, j < 0 \/ n <= j -> x' j = x j /\ w' j = w j.
Proof.
  intros Hn Hrun. unfold gauleg in Hrun.
  rewrite gauleg_half in Hrun by lia.
  assert (Hm : 0 <= (n + 1) / 2) by (apply Z.div_pos; lia).
  replace ((n + 1) / 2) with (Z.of_nat (Z.to_nat ((n + 1) / 2))) in Hrun
    by lia.
  exact (gauleg_prefix_frame fuel _ _ n x w (Z.to_nat ((n + 1) / 2)) Hn
           ltac:(lia) x' w' Hrun).
Qed.

End GaulegFrame.

Section GaussLegendre.

Import Exact.
Local Open Scope R_scope.

Lemma again_false (z z1 : R) :
  again z z1 = false <-> Rabs (z - z1) <= 1 / 100000000000000.
Proof.
  unfold again. rewrite ExactFacts.fgt_false, ExactFacts.ABS_Rabs,
    ExactFacts.EPS_val. reflexivity.
Qed.

Lemma again_true (z z1 : R) :
  again z z1 = true <-> Rabs (z - z1) > 1 / 100000000000000.
Proof.
  unfold again. rewrite ExactFacts.fgt_true, ExactFacts.ABS_Rabs,
    ExactFacts.EPS_val. reflexivity.
Qed.

(** *** One point *)

Lemma legendre_one (z : R) : legendre 1 z = (z, 1).
Proof.
  unfold legendre. change (for_le 1 1) with [1%Z]. cbn [fold_left].
  unfold legendre_step. exact_ops. f_equal. field.
Qed.

Lemma newton_step_one (z : R) : z * z <> 1 -> newton_step 1 z = (0, 1).
Proof.
  intros Hz. unfold newton_step. rewrite legendre_one. exact_ops.
  assert (Hd : z * z - 1 <> 0) by lra.
  f_equal; field; exact Hd.
Qed.

Lemma newton_one (fuel : nat) (z : R) :
  z * z <> 1 -> newton (S (S fuel)) 1 z = Some (0, 1).
Proof.
  intros Hz.
  assert (Hstop : forall f, newton (S f) 1 0 = Some (0, 1)).
  { intros f. rewrite newton_S, newton_step_one by lra. cbn [fst].
    replace (again 0 0) with false; [reflexivity|].
    symmetry. apply again_false. rewrite Rminus_diag, Rabs_R0. lra. }
  rewrite newton_S, newton_step_one by exact Hz. cbn [fst].
  destruct (again 0 z); [apply Hstop|reflexivity].
Qed.

Lemma guess_one_not_unit : guess 1 1 * guess 1 1 <> 1.
Proof.
  unfold guess. exact_ops.
  set (a := 3141592654 / 1000000000 * (1 - 1 / 4) / (1 + 1 / 2)).
  assert (Ha : 0 < a < 3) by (unfold a; lra).
  pose proof PI2_3_2 as Hpi.
  assert (Hs : 0 < sin a) by (apply sin_gt_0; lra).
  pose proof (sin2_cos2 a) as Hsc. unfold Rsqr in Hsc.
  assert (Hss : 0 < sin a * sin a) by (apply Rmult_lt_0_compat; exact Hs).
  intros Heq. lra.
Qed.

(** In the exact reading: with [n = 1] and bounds [x1 < x2], [gauleg]
    returns after two passes of its loop and writes one node, the
    midpoint [(x1+x2)/2], into [x[0]] and the weight [x2 - x1] into [w[0]],
    and nothing else. *)
Theorem gauleg_one_point (fuel : nat) (x1 x2 : R) (x w : buffer R) :
  x1 < x2 -> (2 <= fuel)%nat ->
  exists x' w' : buffer R,
    gauleg fuel x1 x2 x w 1 = Some (x', w')
    /\ x' 0%Z = (x1 + x2) / 2
    /\ w' 0%Z = x2 - x1
    /\ forall j : Z, j <> 0%Z -> x' j = x j /\ w' j = w j.
Proof.
  intros Hlt Hfuel. destruct fuel as [|[|fuel]]; try lia.
  unfold gauleg. change (CInt.div (CInt.add 1 1) 2) with 1%Z.
  change (for_le 1 1) with [1%Z]. cbn [fold_left]. unfold gauleg_body.
  rewrite newton_one by apply guess_one_not_unit.
  change (CInt.sub (CInt.sub (CInt.add 1 1) 1) 1) with 0%Z.
  change (CInt.sub 1 1) with 0%Z.
  eexists. eexists. split; [reflexivity|]. unfold store. cbn [Z.eqb].
  exact_ops. split; [field|]. split; [field|].
  intros j Hj. destruct (Z.eqb_spec j 0) as [|_]; [contradiction|].
  split; reflexivity.
Qed.

Lemma gauleg_one_point_witness :
  exists x' w' : buffer R,
    gauleg 2 0 1 (fun _ => 0) (fun _ => 0) 1 = Some (x', w')
    /\ x' 0%Z = (0 + 1) / 2
    /\ w' 0%Z = 1 - 0
    /\ forall j : Z, j <> 0%Z -> x' j = 0 /\ w' j = 0.
Proof.
  apply (gauleg_one_point 2 0 1 (fun _ => 0) (fun _ => 0)); [lra|lia].
Defined.

(** *** Symmetry *)

Lemma gauleg_prefix_symmetric (fuel : nat) (xm xl : R) (n : Z)
    (x w : buffer R) (k : nat) :
  (1 <= n < CInt.INT_MAX)%Z -> (Z.of_nat k <= (n + 1) / 2)%Z ->
  forall x' w' : buffer R,
    fold_left (gauleg_body fuel xm xl n) (for_le 1 (Z.of_nat k)) (Some (x, w))
    = Some (x', w') ->
    forall j : Z, (0 <= j < Z.of_nat k)%Z ->
      (j <> (n - 1 - j)%Z -> x' j - xm = - (x' (n - 1 - j)%Z - xm))
      /\ w' j = w' (n - 1 - j)%Z.
Proof.
  intros Hn. induction k as [|k IH]; intros Hk x' w' Hrun j Hj; [lia|].
  assert (Hhalf : (2 * ((n + 1) / 2) <= n + 1)%Z)
    by (apply Z.mul_div_le; lia).
  assert (HSk : Z.of_nat (S k) = (Z.of_nat k + 1)%Z) by lia.
  rewrite HSk in *. clear HSk.
  rewrite for_le_snoc in Hrun by lia.
  replace (Z.of_nat k + 1 - 1)%Z with (Z.of_nat k) in Hrun by lia.
  rewrite fold_left_app in Hrun. cbn [fold_left] in Hrun.
  destruct (fold_left (gauleg_body fuel xm xl n) (for_le 1 (Z.of_nat k))
              (Some (x, w))) as [[xk wk]|] eqn:Hprev; [|discriminate].
  specialize (IH ltac:(lia) xk wk eq_refl).
  unfold gauleg_body in Hrun.
  destruct (newton fuel n (guess n (Z.of_nat k + 1))) as [[z pp]|];
    [|discriminate].
  destruct (gauleg_indices n (Z.of_nat k + 1) Hn ltac:(lia)) as [Hi1 Hi2].
  rewrite Hi1, Hi2 in Hrun. injection Hrun as <- <-.
  unfold store. rewrite !Z.eqb_refl.
  destruct (Z.eq_dec j (Z.of_nat k)) as [->|Hjk].
  - destruct (Z.eqb_spec (Z.of_nat k) (Z.of_nat k + 1 - 1)) as [_|E]; [|lia].
    destruct (Z.eqb_spec (n - 1 - Z.of_nat k) (n - (Z.of_nat k + 1)))
      as [_|E]; [|lia].
    destruct (Z.eqb_spec (Z.of_nat k) (n - (Z.of_nat k + 1))) as [Hmid|Hmid].
    + split; [intros Hne; lia|reflexivity].
    + split; [intros _; exact_ops; ring|reflexivity].
  - destruct (IH j ltac:(lia)) as [IHx IHw].
    destruct (Z.eqb_spec j (n - (Z.of_nat k + 1))) as [E|_]; [lia|].
    destruct (Z.eqb_spec j (Z.of_nat k + 1 - 1)) as [E|_]; [lia|].
    destruct (Z.eqb_spec (n - 1 - j) (n - (Z.of_nat k + 1))) as [E|_];
      [lia|].
    destruct (Z.eqb_spec (n - 1 - j) (Z.of_nat k + 1 - 1)) as [E|_]; [lia|].
    split; assumption.
Qed.

(** *** Runs on [[-1, 1]] with two and with three points *)

Lemma PI_upper : PI < 3141592654 / 1000000000.
Proof.
  pose proof (PI_2_3_7_ineq 5) as [_ Hup].
  unfold sum_f_R0, tg_alt, PI_2_3_7_tg, Ratan_seq in Hup.
  cbn [Nat.mul Nat.add pow INR] in Hup. lra.
Qed.

Lemma PI_lower : 3141592653 / 1000000000 < PI.
Proof.
  pose proof (PI_2_3_7_ineq 5) as [Hlo _].
  unfold sum_f_R0, tg_alt, PI_2_3_7_tg, Ratan_seq in Hlo.
  cbn [Nat.mul Nat.add pow INR] in Hlo. lra.
Qed.

(** Two polynomials that bracket the cosine on [0, pi/2]. *)
Lemma cos_bracket (a : R) :
  0 <= a <= 3 / 2 ->
  1 - a * a / 2 + a * a * a * a / 24 - a * a * a * a * a * a / 720
  <= cos a <= 1 - a * a / 2 + a * a * a * a / 24.
Proof.
  intros Ha. pose proof PI2_3_2 as Hpi.
  pose proof (cos_bound a 0 ltac:(lra) ltac:(lra)) as [_ Hup].
  pose proof (cos_bound a 1 ltac:(lra) ltac:(lra)) as [Hlo _].
  unfold cos_approx, cos_term in Hup, Hlo.
  cbn [Nat.mul Nat.add sum_f_R0] in Hup, Hlo.
  assert (F0 : INR (fact 0) = 1) by (rewrite INR_IZR_INZ; reflexivity).
  assert (F2 : INR (fact 2) = 2) by (rewrite INR_IZR_INZ; reflexivity).
  assert (F4 : INR (fact 4) = 24) by (rewrite INR_IZR_INZ; reflexivity).
  assert (F6 : INR (fact 6) = 720) by (rewrite INR_IZR_INZ; reflexivity).
  rewrite F0, F2, F4 in Hup. rewrite F0, F2, F4, F6 in Hlo.
  cbn [pow] in Hup, Hlo. lra.
Qed.

(** *** Closed forms of the recurrence and of the Newton step *)
Lemma legendre_two (z : R) : legendre 2 z = ((3 * z * z - 1) / 2, z).
Proof.
  unfold legendre. change (for_le 1 2) with [1%Z; 2%Z]. cbn [fold_left].
  unfold legendre_step. exact_ops. f_equal; field.
Qed.

Lemma legendre_three (z : R) :
  legendre 3 z = ((5 * z * z * z - 3 * z) / 2, (3 * z * z - 1) / 2).
Proof.
  unfold legendre. change (for_le 1 3) with [1%Z; 2%Z; 3%Z]. cbn [fold_left].
  unfold legendre_step. exact_ops. f_equal; field.
Qed.

Lemma newton_step_two (z : R) :
  z <> 0 -> z * z <> 1 ->
  newton_step 2 z = ((3 * z * z + 1) / (6 * z), 3 * z).
Proof.
  intros Hz H1. unfold newton_step. rewrite legendre_two. exact_ops.
  assert (Hpp : 2 * (z * ((3 * z * z - 1) / 2) - z) / (z * z - 1) = 3 * z)
    by (field; lra).
  rewrite Hpp. f_equal. field. exact Hz.
Qed.

Lemma newton_step_three (z : R) :
  z * z <> 1 -> 5 * z * z <> 1 ->
  newton_step 3 z
  = (10 * z * z * z / (3 * (5 * z * z - 1)), 3 * (5 * z * z - 1) / 2).
Proof.
  intros H1 H5. unfold newton_step. rewrite legendre_three. exact_ops.
  assert (Hpp : 3 * (z * ((5 * z * z * z - 3 * z) / 2) - (3 * z * z - 1) / 2)
                / (z * z - 1) = 3 * (5 * z * z - 1) / 2)
    by (field; lra).
  rewrite Hpp. f_equal. field. lra.
Qed.

Lemma stops_now (fuel : nat) (n : Z) (z : R) (Q : R * R -> Prop) :
  again (fst (newton_step n z)) z = false -> Q (newton_step n z) ->
  stops (S fuel) n z Q.
Proof.
  intros Hag HQ. exists (newton_step n z). rewrite newton_S, Hag.
  split; [reflexivity|exact HQ].
Qed.

Lemma stops_later (fuel : nat) (n : Z) (z : R) (Q : R * R -> Prop) :
  (again (fst (newton_step n z)) z = false -> Q (newton_step n z)) ->
  stops fuel n (fst (newton_step n z)) Q ->
  stops (S fuel) n z Q.
Proof.
  intros Hnow Hlater.
  destruct (again (fst (newton_step n z)) z) eqn:Hag.
  - destruct Hlater as (r & Hr & HQ). exists r. rewrite newton_S, Hag.
    split; assumption.
  - apply stops_now; [exact Hag|apply Hnow; reflexivity].
Qed.

(** *** Two points: Heron's iteration for the square root of 1/3 *)

Lemma newton_two_pass (z E : R) :
  0 < z < 1 -> 1 <= 3 * z * z -> 3 * z * z - 1 <= E ->
  let z' := fst (newton_step 2 z) in
  0 < z' < 1 /\ 1 <= 3 * z' * z' /\ 3 * z' * z' - 1 <= E * E / 4
  /\ Rabs (z' - z) <= E / 3.
Proof.
  intros Hz H3 HE. rewrite newton_step_two by nra. cbn [fst].
  set (z' := (3 * z * z + 1) / (6 * z)).
  assert (Hz' : z' * (6 * z) = 3 * z * z + 1) by (unfold z'; field; lra).
  assert (Hhalf : 1 / 2 < z) by nra.
  assert (Hpos : 0 < z') by nra.
  assert (Hle : z' <= z) by nra.
  assert (He : (3 * z' * z' - 1) * (12 * (z * z))
               = (3 * z * z - 1) * (3 * z * z - 1)).
  { replace ((3 * z' * z' - 1) * (12 * (z * z)))
      with ((z' * (6 * z)) * (z' * (6 * z)) - 12 * (z * z)) by ring.
    rewrite Hz'. ring. }
  assert (Hsq : (3 * z * z - 1) * (3 * z * z - 1) <= E * E) by nra.
  assert (He0 : 0 <= 3 * z' * z' - 1) by nra.
  assert (He1 : 3 * z' * z' - 1 <= E * E / 4) by nra.
  assert (Hstep : (z - z') * (6 * z) = 3 * z * z - 1) by nra.
  repeat split; try lra.
  rewrite Rabs_left1 by lra. nra.
Qed.

Lemma newton_two_stops (fuel : nat) (z : R) :
  0 < z < 1 -> 1 <= 3 * z * z -> 3 * z * z - 1 <= 5 / 100 ->
  stops (S (S (S (S fuel)))) 2 z (fun _ => True).
Proof.
  intros Hz H3 HE.
  destruct (newton_two_pass z _ Hz H3 HE) as (Hz1 & H31 & HE1 & _).
  set (z1 := fst (newton_step 2 z)) in *.
  destruct (newton_two_pass z1 _ Hz1 H31 HE1) as (Hz2 & H32 & HE2 & _).
  set (z2 := fst (newton_step 2 z1)) in *.
  destruct (newton_two_pass z2 _ Hz2 H32 HE2) as (Hz3 & H33 & HE3 & _).
  set (z3 := fst (newton_step 2 z2)) in *.
  destruct (newton_two_pass z3 _ Hz3 H33 HE3) as (_ & _ & _ & Hstep).
  apply stops_later; [trivial|]. fold z1.
  apply stops_later; [trivial|]. fold z2.
  apply stops_later; [trivial|]. fold z3.
  apply stops_now; [|trivial].
  apply again_false. lra.
Qed.

Lemma guess_two_bounds :
  58 / 100 <= guess 2 1 <= 59 / 100.
Proof.
  unfold guess. exact_ops.
  set (a := 3141592654 / 1000000000 * (1 - 1 / 4) / (2 + 1 / 2)).
  assert (Ha : a = 9424777962 / 10000000000) by (unfold a; lra).
  pose proof (cos_bracket a ltac:(lra)) as Hb.
  rewrite Ha in *. lra.
Qed.

Lemma gauleg_two_returns (fuel : nat) (x1 x2 : R) (x w : buffer R) :
  exists x' w' : buffer R,
    gauleg (S (S (S (S fuel)))) x1 x2 x w 2 = Some (x', w').
Proof.
  unfold gauleg. change (CInt.div (CInt.add 2 1) 2) with 1%Z.
  change (for_le 1 1) with [1%Z]. cbn [fold_left]. unfold gauleg_body.
  pose proof guess_two_bounds as Hg.
  destruct (newton_two_stops fuel (guess 2 1)) as ([z pp] & -> & _);
    try nra.
  eexists. eexists. reflexivity.
Qed.

(** *** Three points *)

(** The pass towards the outer root, the square root of 3/5. *)
Lemma newton_three_pass (z E : R) :
  0 < z < 1 -> 3 <= 5 * z * z -> 5 * z * z - 3 <= E -> E <= 1 / 10 ->
  let z' := fst (newton_step 3 z) in
  0 < z' < 1 /\ 3 <= 5 * z' * z' /\ 5 * z' * z' - 3 <= E * E / 3
  /\ Rabs (z' - z) <= E / 6.
Proof.
  intros Hz H3 HE HE10. rewrite newton_step_three by nra. cbn [fst].
  set (d := 5 * z * z - 1).
  assert (Hd : 2 <= d <= 21 / 10) by (unfold d; lra).
  set (z' := 10 * z * z * z / (3 * d)).
  assert (Hz' : z' * (3 * d) = 10 * z * z * z) by (unfold z'; field; lra).
  set (e := 5 * z * z - 3).
  assert (Hstep : (z - z') * (3 * d) = z * e) by (unfold e, d in *; nra).
  assert (He : (5 * z' * z' - 3) * (9 * (d * d))
               = e * e * (20 * (z * z) - 3)).
  { replace ((5 * z' * z' - 3) * (9 * (d * d)))
      with (5 * ((z' * (3 * d)) * (z' * (3 * d))) - 27 * (d * d)) by ring.
    rewrite Hz'. unfold e, d. ring. }
  assert (He0 : 0 <= e <= E) by (unfold e; lra).
  assert (Hee : e * e <= E * E) by nra.
  assert (Hzz : 3 / 5 <= z * z <= 62 / 100) by lra.
  assert (Hpos : 0 < z').
  { assert (0 < z * z * z) by nra. nra. }
  assert (Hle : z' <= z) by nra.
  assert (Hdd : 4 <= d * d) by nra.
  assert (He'0 : 0 <= 5 * z' * z' - 3).
  { assert (0 <= e * e * (20 * (z * z) - 3)) by (apply Rmult_le_pos; nra).
    nra. }
  assert (He'1 : 5 * z' * z' - 3 <= E * E / 3).
  { assert (Hup : e * e * (20 * (z * z) - 3) <= E * E * (94 / 10)).
    { apply Rmult_le_compat; nra. }
    nra. }
  repeat split; try lra.
  rewrite Rabs_left1 by lra.
  assert (Hze : z * e <= e) by nra. nra.
Qed.

Lemma newton_three_stops (fuel : nat) (z : R) :
  0 < z < 1 -> 3 <= 5 * z * z -> 5 * z * z - 3 <= 6 / 100 ->
  stops (S (S (S (S (S fuel))))) 3 z (fun _ => True).
Proof.
  intros Hz H3 HE.
  destruct (newton_three_pass z _ Hz H3 HE ltac:(lra)) as (Hz1 & H31 & HE1 & _).
  set (z1 := fst (newton_step 3 z)) in *.
  destruct (newton_three_pass z1 _ Hz1 H31 HE1 ltac:(lra))
    as (Hz2 & H32 & HE2 & _).
  set (z2 := fst (newton_step 3 z1)) in *.
  destruct (newton_three_pass z2 _ Hz2 H32 HE2 ltac:(lra))
    as (Hz3 & H33 & HE3 & _).
  set (z3 := fst (newton_step 3 z2)) in *.
  destruct (newton_three_pass z3 _ Hz3 H33 HE3 ltac:(lra))
    as (Hz4 & H34 & HE4 & _).
  set (z4 := fst (newton_step 3 z3)) in *.
  destruct (newton_three_pass z4 _ Hz4 H34 HE4 ltac:(lra))
    as (_ & _ & _ & Hstep).
  apply stops_later; [trivial|]. fold z1.
  apply stops_later; [trivial|]. fold z2.
  apply stops_later; [trivial|]. fold z3.
  apply stops_later; [trivial|]. fold z4.
  apply stops_now; [|trivial].
  apply again_false. lra.
Qed.

Lemma Rabs_bounds (a b : R) : Rabs a <= b -> - b <= a <= b.
Proof. unfold Rabs. destruct (Rcase_abs a); lra. Qed.

(** The pass towards the middle root 0: it never reaches it. *)
Lemma newton_three_middle_pass (z E : R) :
  z <> 0 -> Rabs z <= E -> E <= 1 / 10 ->
  let z' := fst (newton_step 3 z) in
  z' <> 0 /\ Rabs z' <= 4 * (E * E * E) /\ Rabs (z' - z) <= 2 * E.
Proof.
  intros Hz HzE HE.
  assert (Hzb : - E <= z <= E) by (apply Rabs_bounds; exact HzE).
  assert (HE0 : 0 <= E) by lra.
  assert (Hzz : z * z <= 1 / 100) by nra.
  rewrite newton_step_three by nra. cbn [fst].
  set (d := 5 * z * z - 1).
  assert (Hd : -1 <= d <= - (95 / 100)) by (unfold d; nra).
  set (z' := 10 * z * z * z / (3 * d)).
  assert (Hz' : z' * (3 * d) = 10 * z * z * z) by (unfold z'; field; lra).
  assert (HEE : z * z <= E * E) by nra.
  assert (Hcube : - (E * E * E) <= z * z * z <= E * E * E).
  { split.
    - destruct (Rle_dec 0 z); [nra|].
      assert (0 <= (- z) * (z * z) <= E * (E * E)).
      { split; [nra|]. apply Rmult_le_compat; nra. }
      nra.
    - destruct (Rle_dec 0 z).
      + assert (z * (z * z) <= E * (E * E))
          by (apply Rmult_le_compat; nra).
        nra.
      + nra. }
  assert (HE3 : 0 <= E * E * E) by (apply Rmult_le_pos; nra).
  assert (Hb : - (4 * (E * E * E)) <= z' <= 4 * (E * E * E)) by nra.
  assert (HE3' : 4 * (E * E * E) <= E) by nra.
  split; [|split].
  - intros H0. rewrite H0 in Hz'.
    assert (Hz3 : z * z * z = 0) by lra.
    apply Hz. destruct (Rmult_integral _ _ Hz3) as [Hzz0|]; [|assumption].
    destruct (Rmult_integral _ _ Hzz0); assumption.
  - apply Rabs_le. lra.
  - apply Rabs_le. lra.
Qed.

Lemma newton_three_middle_stops (fuel : nat) (z : R) :
  z <> 0 -> Rabs z <= 1 / 1000000000 ->
  stops (S (S fuel)) 3 z (fun r => fst r <> 0).
Proof.
  intros Hz HE.
  destruct (newton_three_middle_pass z _ Hz HE ltac:(lra))
    as (Hz1 & HE1 & _).
  set (z1 := fst (newton_step 3 z)) in *.
  destruct (newton_three_middle_pass z1 _ Hz1 HE1 ltac:(lra))
    as (Hz2 & _ & Hstep).
  apply stops_later; [intros _; exact Hz1|]. fold z1.
  apply stops_now; [|exact Hz2].
  apply again_false. lra.
Qed.

Lemma guess_three_outer : 78 / 100 <= guess 3 1 <= 7822 / 10000.
Proof.
  unfold guess. exact_ops.
  set (a := 3141592654 / 1000000000 * (1 - 1 / 4) / (3 + 1 / 2)).
  assert (Ha : 6731 / 10000 <= a <= 6732 / 10000) by (unfold a; lra).
  pose proof (cos_bracket a ltac:(lra)) as Hb.
  assert (Haa : 0.45306 <= a * a <= 0.4532) by nra.
  assert (Ha4 : 0.2052 <= a * a * a * a <= 0.2054) by nra.
  assert (Ha6 : a * a * a * a * a * a <= 0.0931).
  { replace (a * a * a * a * a * a) with ((a * a * a * a) * (a * a)) by ring.
    nra. }
  lra.
Qed.

Lemma guess_three_middle :
  guess 3 2 <> 0 /\ Rabs (guess 3 2) <= 1 / 1000000000.
Proof.
  unfold guess. exact_ops.
  set (a := 3141592654 / 1000000000 * (2 - 1 / 4) / (3 + 1 / 2)).
  assert (Ha : a = 3141592654 / 2000000000) by (unfold a; lra).
  pose proof PI_upper as Hup. pose proof PI_lower as Hlo.
  set (delta := a - PI / 2).
  assert (Hd : 0 < delta < 1 / 1000000000) by (unfold delta; lra).
  assert (Hcos : cos a = - sin delta).
  { rewrite (sin_cos delta). unfold delta.
    replace (PI / 2 + (a - PI / 2)) with a by ring. ring. }
  pose proof (sin_gt_0 delta ltac:(lra) ltac:(lra)) as Hs0.
  pose proof (sin_lt_x delta ltac:(lra)) as Hs1.
  rewrite Hcos. split; [lra|]. apply Rabs_le. lra.
Qed.

Lemma gauleg_three_middle (fuel : nat) (x w : buffer R) :
  exists x' w' : buffer R,
    gauleg (S (S (S (S (S fuel))))) (- lit 1 0)%D (lit 1 0) x w 3
    = Some (x', w')
    /\ x' 1%Z <> - x' 1%Z.
Proof.
  unfold gauleg. change (CInt.div (CInt.add 3 1) 2) with 2%Z.
  change (for_le 1 2) with [1%Z; 2%Z]. cbn [fold_left]. unfold gauleg_body.
  pose proof guess_three_outer as Hg.
  destruct (newton_three_stops fuel (guess 3 1)) as ([z1 pp1] & -> & _);
    try nra.
  destruct guess_three_middle as [Hnz Hsmall].
  destruct (newton_three_middle_stops (S (S (S fuel))) (guess 3 2) Hnz Hsmall)
    as ([z2 pp2] & -> & Hz2).
  cbn [fst] in Hz2.
  change (CInt.sub 1 1) with 0%Z. change (CInt.sub 2 1) with 1%Z.
  change (CInt.sub (CInt.sub (CInt.add 3 1) 1) 1) with 2%Z.
  change (CInt.sub (CInt.sub (CInt.add 3 1) 2) 1) with 1%Z.
  eexists. eexists. split; [reflexivity|].
  unfold store. cbn [Z.eqb Pos.eqb]. exact_ops. intros Heq. apply Hz2. lra.
Qed.

Lemma gauleg_in_bounds_witness :
  exists x' w' : buffer R,
    gauleg 4 (- lit 1 0)%D (lit 1 0) (fun _ => 0) (fun _ => 0) 2
    = Some (x', w')
    /\ forall j : Z, (j < 0 \/ 2 <= j)%Z -> x' j = 0 /\ w' j = 0.
Proof.
  destruct (gauleg_two_returns 0 (- lit 1 0)%D (lit 1 0)
              (fun _ => 0) (fun _ => 0)) as (x' & w' & Hrun).
  exists x', w'. split; [exact Hrun|].
  apply (gauleg_in_bounds 4 (- lit 1 0)%D (lit 1 0) 2
           (fun _ => 0) (fun _ => 0) x' w');
    [unfold CInt.INT_MAX; lia|exact Hrun].
Defined.

(** In the exact reading the middle node of an odd rule is never 0: with
    three points [gauleg] returns, and [x[1]], the last Newton iterate
    towards the root 0, is not [-x[1]].  (In binary64 the same loop is left
    with [+0]; see [newton_middle_three].) *)
Lemma gauleg_middle_node :
  exists x' w' : buffer R,
    gauleg 5 (- lit 1 0)%D (lit 1 0) (fun _ => 0) (fun _ => 0) 3
    = Some (x', w')
    /\ x' 1%Z <> - x' 1%Z.
Proof. apply (gauleg_three_middle 0). Qed.

(** *** Four points *)

Lemma legendre_four (z : R) :
  legendre 4 z = (quartic z / 8, (5 * z * z * z - 3 * z) / 2).
Proof.
  unfold legendre, quartic. change (for_le 1 4) with [1%Z; 2%Z; 3%Z; 4%Z].
  cbn [fold_left]. unfold legendre_step. exact_ops. f_equal; field.
Qed.

Lemma newton_step_four (z : R) :
  z * z <> 1 -> quartic' z <> 0 ->
  newton_step 4 z = (z - quartic z / quartic' z, quartic' z / 8).
Proof.
  intros H1 HD. unfold newton_step. rewrite legendre_four. exact_ops.
  assert (Hpp : 4 * (z * (quartic z / 8) - (5 * z * z * z - 3 * z) / 2)
                / (z * z - 1) = quartic' z / 8).
  { unfold quartic, quartic'. field. lra. }
  rewrite Hpp. f_equal. field. exact HD.
Qed.

(** The value of the quartic after a Newton step of length [h]. *)
Lemma quartic_step (z h : R) :
  h * quartic' z = quartic z ->
  quartic (z - h)
  = h * h * (210 * (z * z) - 30 - 140 * z * h + 35 * (h * h)).
Proof.
  intros Hh.
  replace (quartic (z - h))
    with (quartic z - h * quartic' z
          + h * h * (210 * (z * z) - 30 - 140 * z * h + 35 * (h * h)))
    by (unfold quartic, quartic'; ring).
  rewrite Hh. ring.
Qed.

Lemma quartic_negative_outer (x : R) :
  85 / 100 <= x <= 861 / 1000 -> quartic x < 0.
Proof.
  intros Hx. unfold quartic.
  replace (x * x * x * x) with ((x * x) * (x * x)) by ring.
  set (u := x * x).
  assert (Hu : 7225 / 10000 <= u <= 741321 / 1000000) by (unfold u; nra).
  assert (Hc : (u - 7225 / 10000) * (u - 741321 / 1000000) <= 0) by nra.
  nra.
Qed.

(** One pass towards the outer root. *)
Lemma newton_four_outer_pass (z E : R) :
  861 / 1000 <= z <= 87 / 100 -> 0 <= quartic z <= E -> E <= 35 / 100 ->
  let z' := fst (newton_step 4 z) in
  861 / 1000 <= z' <= z /\ 0 <= quartic z' <= E * E / 10
  /\ (z - z') * quartic' z = quartic z
  /\ z - z' <= E / 37
  /\ snd (newton_step 4 z) = quartic' z / 8.
Proof.
  intros Hz Hf HE.
  assert (HD : 37 <= quartic' z <= 40) by (unfold quartic'; nra).
  rewrite newton_step_four by (try nra; lra). cbn [fst snd].
  set (h := quartic z / quartic' z).
  assert (Hh : h * quartic' z = quartic z) by (unfold h; field; lra).
  assert (Hh0 : 0 <= h) by nra.
  assert (Hh1 : h <= E / 37) by nra.
  pose proof (quartic_step z h Hh) as Hq.
  set (c := 210 * (z * z) - 30 - 140 * z * h + 35 * (h * h)) in *.
  assert (Hc : 124 <= c <= 129) by (unfold c; nra).
  assert (Hhh : h * h <= E * E / 1369) by nra.
  assert (Hq0 : 0 <= quartic (z - h)) by (rewrite Hq; nra).
  assert (Hq1 : quartic (z - h) <= E * E / 10) by (rewrite Hq; nra).
  replace (z - (z - h)) with h by ring.
  repeat split; try lra.
  destruct (Rle_dec (861 / 1000) (z - h)) as [Hok|Hbad]; [exact Hok|].
  exfalso. pose proof (quartic_negative_outer (z - h) ltac:(lra)). lra.
Qed.

Lemma quartic_positive_inner (x : R) :
  32 / 100 <= x <= 3399 / 10000 -> 0 < quartic x.
Proof.
  intros Hx. unfold quartic.
  replace (x * x * x * x) with ((x * x) * (x * x)) by ring.
  set (u := x * x).
  assert (Hu : 1024 / 10000 <= u <= 11553201 / 100000000) by (unfold u; nra).
  assert (Hc : 0 <= (u - 11553201 / 100000000)
                    * (35 * (u + 11553201 / 100000000) - 30)) by nra.
  nra.
Qed.

(** One pass towards the inner root. *)
Lemma newton_four_inner_pass (z E : R) :
  3399 / 10000 <= z <= 35 / 100 -> - E <= quartic z <= 0 -> E <= 15 / 100 ->
  let z' := fst (newton_step 4 z) in
  3399 / 10000 <= z' <= z /\ - (E * E / 30) <= quartic z' <= 0
  /\ (z - z') * quartic' z = quartic z
  /\ z - z' <= E / 14
  /\ snd (newton_step 4 z) = quartic' z / 8.
Proof.
  intros Hz Hf HE.
  assert (Hzz : 1155 / 10000 <= z * z <= 1225 / 10000) by nra.
  assert (HD : - (154 / 10) <= quartic' z <= - (145 / 10)).
  { unfold quartic'. set (s := 7 * (z * z) - 3).
    assert (Hs : - (22 / 10) <= s <= - (214 / 100)) by (unfold s; lra).
    nra. }
  rewrite newton_step_four by (try nra; lra). cbn [fst snd].
  set (h := quartic z / quartic' z).
  assert (Hh : h * quartic' z = quartic z) by (unfold h; field; lra).
  assert (Hh0 : 0 <= h).
  { destruct (Rlt_le_dec h 0) as [Hneg|Hpos]; [exfalso|exact Hpos].
    assert (0 < (- h) * (- quartic' z)) by (apply Rmult_lt_0_compat; lra).
    lra. }
  assert (Hh1 : h <= E / (145 / 10)).
  { apply Rmult_le_reg_r with (145 / 10); [lra|].
    unfold Rdiv at 2. rewrite Rmult_assoc, Rinv_l by lra.
    assert (h * (145 / 10) <= h * (- quartic' z))
      by (apply Rmult_le_compat_l; lra).
    lra. }
  assert (Hh2 : h <= E / 14) by lra.
  pose proof (quartic_step z h Hh) as Hq.
  set (c := 210 * (z * z) - 30 - 140 * z * h + 35 * (h * h)) in *.
  assert (Hc : - (63 / 10) <= c <= - 4) by (unfold c; nra).
  assert (Hhh : h * h <= E * E / (145 / 10 * (145 / 10))).
  { assert (h * h <= E / (145 / 10) * (E / (145 / 10))) by nra.
    replace (E * E / (145 / 10 * (145 / 10)))
      with (E / (145 / 10) * (E / (145 / 10))) by (field; lra).
    assumption. }
  assert (Hhh0 : 0 <= h * h) by nra.
  assert (Hq0 : quartic (z - h) <= 0) by (rewrite Hq; nra).
  assert (Hq1 : - (E * E / 30) <= quartic (z - h)).
  { rewrite Hq.
    assert (h * h * c >= h * h * - (63 / 10)) by nra.
    assert (E * E / (145 / 10 * (145 / 10)) * (63 / 10) <= E * E / 30).
    { assert (0 <= E * E) by nra. lra. }
    nra. }
  replace (z - (z - h)) with h by ring.
  repeat split; try lra.
  destruct (Rle_dec (3399 / 10000) (z - h)) as [Hok|Hbad]; [exact Hok|].
  exfalso. pose proof (quartic_positive_inner (z - h) ltac:(lra)). lra.
Qed.


Lemma newton_four_outer_exit (z E : R) :
  861 / 1000 <= z <= 87 / 100 -> 0 <= quartic z <= E -> E <= 35 / 100 ->
  again (fst (newton_step 4 z)) z = false ->
  near_root (861 / 1000) (87 / 100) (newton_step 4 z).
Proof.
  intros Hz Hf HE Hag.
  destruct (newton_four_outer_pass z E Hz Hf HE) as (Hz' & _ & Hh & _ & Hpp).
  apply again_false in Hag. rewrite Rabs_left1 in Hag by lra.
  assert (HD : 37 <= quartic' z <= 40) by (unfold quartic'; nra).
  exists z. repeat split; try lra; try exact Hpp.
  rewrite Rabs_right by lra. nra.
Qed.

Lemma newton_four_inner_exit (z E : R) :
  3399 / 10000 <= z <= 35 / 100 -> - E <= quartic z <= 0 -> E <= 15 / 100 ->
  again (fst (newton_step 4 z)) z = false ->
  near_root (3399 / 10000) (35 / 100) (newton_step 4 z).
Proof.
  intros Hz Hf HE Hag.
  destruct (newton_four_inner_pass z E Hz Hf HE) as (Hz' & _ & Hh & _ & Hpp).
  apply again_false in Hag. rewrite Rabs_left1 in Hag by lra.
  assert (Hzz : 1155 / 10000 <= z * z <= 1225 / 10000) by nra.
  assert (HD : - (154 / 10) <= quartic' z <= - (145 / 10)).
  { unfold quartic'. set (s := 7 * (z * z) - 3).
    assert (Hs : - (22 / 10) <= s <= - (214 / 100)) by (unfold s; lra).
    nra. }
  exists z. repeat split; try lra; try exact Hpp.
  rewrite Rabs_left1 by lra.
  assert ((z - fst (newton_step 4 z)) * (- quartic' z)
          <= 1 / 100000000000000 * (154 / 10))
    by (apply Rmult_le_compat; lra).
  lra.
Qed.

Lemma newton_four_outer_stops (fuel : nat) (z : R) :
  861 / 1000 <= z <= 87 / 100 -> 0 <= quartic z <= 2 / 10 ->
  stops (S (S (S (S fuel)))) 4 z (near_root (861 / 1000) (87 / 100)).
Proof.
  intros Hz Hf.
  destruct (newton_four_outer_pass z _ Hz Hf ltac:(lra)) as (Hz1 & Hf1 & _).
  set (z1 := fst (newton_step 4 z)) in *.
  destruct (newton_four_outer_pass z1 _ ltac:(lra) Hf1 ltac:(lra))
    as (Hz2 & Hf2 & _).
  set (z2 := fst (newton_step 4 z1)) in *.
  destruct (newton_four_outer_pass z2 _ ltac:(lra) Hf2 ltac:(lra))
    as (Hz3 & Hf3 & _).
  set (z3 := fst (newton_step 4 z2)) in *.
  destruct (newton_four_outer_pass z3 _ ltac:(lra) Hf3 ltac:(lra))
    as (Hz4 & _ & _ & Hstep & _).
  apply stops_later;
    [apply (newton_four_outer_exit z (2 / 10)); (assumption || lra)|].
  fold z1.
  apply stops_later;
    [apply (newton_four_outer_exit z1 _ ltac:(lra) Hf1); lra|].
  fold z2.
  apply stops_later;
    [apply (newton_four_outer_exit z2 _ ltac:(lra) Hf2); lra|].
  fold z3.
  assert (Hag : again (fst (newton_step 4 z3)) z3 = false).
  { apply again_false. rewrite Rabs_left1 by lra. lra. }
  apply stops_now; [exact Hag|].
  apply (newton_four_outer_exit z3 _ ltac:(lra) Hf3); [lra|exact Hag].
Qed.

Lemma newton_four_inner_stops (fuel : nat) (z : R) :
  3399 / 10000 <= z <= 35 / 100 -> - (1 / 10) <= quartic z <= 0 ->
  stops (S (S (S (S fuel)))) 4 z (near_root (3399 / 10000) (35 / 100)).
Proof.
  intros Hz Hf.
  destruct (newton_four_inner_pass z _ Hz Hf ltac:(lra)) as (Hz1 & Hf1 & _).
  set (z1 := fst (newton_step 4 z)) in *.
  destruct (newton_four_inner_pass z1 _ ltac:(lra) Hf1 ltac:(lra))
    as (Hz2 & Hf2 & _).
  set (z2 := fst (newton_step 4 z1)) in *.
  destruct (newton_four_inner_pass z2 _ ltac:(lra) Hf2 ltac:(lra))
    as (Hz3 & Hf3 & _).
  set (z3 := fst (newton_step 4 z2)) in *.
  destruct (newton_four_inner_pass z3 _ ltac:(lra) Hf3 ltac:(lra))
    as (Hz4 & _ & _ & Hstep & _).
  apply stops_later;
    [apply (newton_four_inner_exit z (1 / 10)); (assumption || lra)|].
  fold z1.
  apply stops_later;
    [apply (newton_four_inner_exit z1 _ ltac:(lra) Hf1); lra|].
  fold z2.
  apply stops_later;
    [apply (newton_four_inner_exit z2 _ ltac:(lra) Hf2); lra|].
  fold z3.
  assert (Hag : again (fst (newton_step 4 z3)) z3 = false).
  { apply again_false. rewrite Rabs_left1 by lra. lra. }
  apply stops_now; [exact Hag|].
  apply (newton_four_inner_exit z3 _ ltac:(lra) Hf3); [lra|exact Hag].
Qed.

Lemma quartic_guess_outer (x : R) :
  866 / 1000 <= x <= 8661 / 10000 -> 0 <= quartic x <= 2 / 10.
Proof.
  intros Hx. unfold quartic.
  replace (x * x * x * x) with ((x * x) * (x * x)) by ring.
  set (u := x * x).
  assert (Hu : 749956 / 1000000 <= u <= 75013 / 100000) by (unfold u; nra).
  assert (Hc : (u - 749956 / 1000000) * (u - 75013 / 100000) <= 0) by nra.
  assert (Hd : 0 <= (u - 749956 / 1000000)
                    * (35 * (u + 749956 / 1000000) - 30)) by nra.
  nra.
Qed.

Lemma quartic_guess_inner (x : R) :
  3418 / 10000 <= x <= 3466 / 10000 -> - (1 / 10) <= quartic x <= 0.
Proof.
  intros Hx. unfold quartic.
  replace (x * x * x * x) with ((x * x) * (x * x)) by ring.
  set (u := x * x).
  assert (Hu : 1168 / 10000 <= u <= 12014 / 100000) by (unfold u; nra).
  assert (Hc : (u - 1168 / 10000) * (u - 12014 / 100000) <= 0) by nra.
  assert (Hd : 0 <= (u - 12014 / 100000) * (35 * (u + 12014 / 100000) - 30))
    by nra.
  nra.
Qed.

Lemma guess_four_outer : 866 / 1000 <= guess 4 1 <= 8661 / 10000.
Proof.
  unfold guess. exact_ops.
  set (a := 3141592654 / 1000000000 * (1 - 1 / 4) / (4 + 1 / 2)).
  assert (Ha : 52359 / 100000 <= a <= 5236 / 10000) by (unfold a; lra).
  pose proof (cos_bracket a ltac:(lra)) as Hb.
  assert (Haa : 0.274146 <= a * a <= 0.27416) by nra.
  assert (Ha4 : 0.075156 <= a * a * a * a <= 0.07517) by nra.
  assert (Ha6 : a * a * a * a * a * a <= 0.0207).
  { replace (a * a * a * a * a * a) with ((a * a * a * a) * (a * a)) by ring.
    nra. }
  lra.
Qed.

Lemma guess_four_inner : 3418 / 10000 <= guess 4 2 <= 3466 / 10000.
Proof.
  unfold guess. exact_ops.
  set (a := 3141592654 / 1000000000 * (2 - 1 / 4) / (4 + 1 / 2)).
  assert (Ha : 12217 / 10000 <= a <= 122174 / 100000) by (unfold a; lra).
  pose proof (cos_bracket a ltac:(lra)) as Hb.
  assert (Haa : 1.49255 <= a * a <= 1.49265) by nra.
  assert (Ha4 : 2.2277 <= a * a * a * a <= 2.22801) by nra.
  assert (Ha6 : a * a * a * a * a * a <= 3.32564).
  { replace (a * a * a * a * a * a) with ((a * a * a * a) * (a * a)) by ring.
    nra. }
  lra.
Qed.


Lemma sqrt30_facts :
  5477 / 1000 < sqrt 30 < 5478 / 1000 /\ sqrt 30 * sqrt 30 = 30.
Proof.
  pose proof (sqrt_sqrt 30 ltac:(lra)) as Hs.
  pose proof (sqrt_pos 30) as Hp.
  split; [|exact Hs]. split; nra.
Qed.

Lemma roots_facts :
  (7415 / 10000 < u_outer < 7416 / 10000)
  /\ (1155 / 10000 < u_inner < 1156 / 10000)
  /\ 35 * (u_outer * u_outer) - 30 * u_outer + 3 = 0
  /\ 35 * (u_inner * u_inner) - 30 * u_inner + 3 = 0
  /\ (forall z, quartic z = 35 * (z * z - u_outer) * (z * z - u_inner))
  /\ gl_weight u_outer + gl_weight u_inner = 1.
Proof.
  destruct sqrt30_facts as [Hb Hs]. unfold u_outer, u_inner, gl_weight.
  set (s := sqrt 30) in *.
  split; [lra|]. split; [lra|].
  split; [field_simplify; nra|]. split; [field_simplify; nra|].
  split.
  - intros z. unfold quartic. field_simplify. nra.
  - assert (H1 : 3 * (5 * ((15 + 2 * s) / 35) + 3) <> 0) by lra.
    assert (H2 : 3 * (5 * ((15 - 2 * s) / 35) + 3) <> 0) by lra.
    apply Rmult_eq_reg_r
      with (3 * (5 * ((15 + 2 * s) / 35) + 3)
            * (3 * (5 * ((15 - 2 * s) / 35) + 3))).
    + field_simplify; [|lra]. nra.
    + apply Rmult_integral_contrapositive. split; assumption.
Qed.

Lemma product_small (d m delta M : R) :
  - delta <= d <= delta -> - M <= m <= M ->
  - (delta * M) <= d * m <= delta * M.
Proof.
  intros Hd Hm.
  assert (H1 : 0 <= (delta - d) * (M - m)) by (apply Rmult_le_pos; lra).
  assert (H2 : 0 <= (delta + d) * (M + m)) by (apply Rmult_le_pos; lra).
  assert (H3 : 0 <= (delta - d) * (M + m)) by (apply Rmult_le_pos; lra).
  assert (H4 : 0 <= (delta + d) * (M - m)) by (apply Rmult_le_pos; lra).
  lra.
Qed.

(** The weight computed from the last two iterates is within [3e-12] of the
    exact weight of the root they approach. *)
Lemma weight_close (u z zp : R) :
  35 * (u * u) - 30 * u + 3 = 0 -> 1 / 10 <= u <= 3 / 4 ->
  3 / 10 <= z <= zp -> zp <= 9 / 10 ->
  zp - z <= 1 / 100000000000000 ->
  - (2 / 100000000000000) <= zp * zp - u <= 2 / 100000000000000 ->
  Rabs (2 / ((1 - z * z) * (quartic' zp / 8) * (quartic' zp / 8))
        - gl_weight u)
  <= 3 / 1000000000000.
Proof.
  intros Hroot Hu Hz Hzp Hstep Hb. unfold gl_weight, quartic'.
  set (a := z * z). set (b := zp * zp) in *.
  assert (Hba : 0 <= b - a <= 2 / 100000000000000).
  { unfold a, b. replace (zp * zp - z * z) with ((zp - z) * (zp + z)) by ring.
    split; [apply Rmult_le_pos; lra|].
    assert ((zp - z) * (zp + z) <= 1 / 100000000000000 * 2)
      by (apply Rmult_le_compat; lra).
    lra. }
  assert (Hbr : 9 / 100 <= b <= 81 / 100) by (unfold b; nra).
  set (da := a - u). set (db := b - u).
  assert (Hda : - (4 / 100000000000000) <= da <= 4 / 100000000000000)
    by (unfold da; lra).
  assert (Hdb : - (4 / 100000000000000) <= db <= 4 / 100000000000000)
    by (unfold db; lra).
  set (Sb := (7 * b - 3) * (7 * b - 3)).
  assert (HSb : 0 <= Sb <= 8) by (unfold Sb; nra).
  set (X := (1 - a) * b * Sb * (25 / 8)).
  set (T := 3 * (5 * u + 3) / 7).
  assert (HT : T = (1 - u) * u * ((7 * u - 3) * (7 * u - 3)) * (25 / 8)).
  { unfold T.
    assert (Hq : (35 * (u * u) - 30 * u + 3)
                 * (- (3 / 7) + 35 / 8 * u - 35 / 8 * (u * u)) = 0)
      by (rewrite Hroot; ring).
    lra. }
  assert (Hdiff : X - T
                  = (25 / 8) * (da * (- (b * Sb)) + db * ((1 - u) * Sb)
                                + db * ((1 - u) * u * 7 * (7 * b + 7 * u - 6)))).
  { rewrite HT. unfold X, Sb, da, db. ring. }
  assert (Hm1 : - 8 <= - (b * Sb) <= 8) by nra.
  assert (Hm2 : - 8 <= (1 - u) * Sb <= 8) by nra.
  assert (Hm3 : - 10 <= (1 - u) * u * 7 * (7 * b + 7 * u - 6) <= 10).
  { assert (Huu : 0 <= (1 - u) * u <= 1 / 4) by nra.
    assert (Hl : - 5 <= 7 * b + 7 * u - 6 <= 5) by lra.
    pose proof (product_small ((1 - u) * u) (7 * b + 7 * u - 6) (1 / 4) 5
                  ltac:(lra) Hl).
    lra. }
  pose proof (product_small da _ (4 / 100000000000000) 8 Hda Hm1) as Ht1.
  pose proof (product_small db _ (4 / 100000000000000) 8 Hdb Hm2) as Ht2.
  pose proof (product_small db _ (4 / 100000000000000) 10 Hdb Hm3) as Ht3.
  assert (HXT : - (1 / 1000000000000) * 4 <= X - T <= 1 / 1000000000000 * 4)
    by (rewrite Hdiff; lra).
  assert (HT1 : 3 / 2 <= T <= 3) by (unfold T; lra).
  assert (HX1 : 1 <= X) by lra.
  assert (HSu : (7 * u - 3) * (7 * u - 3) = 24 / 5) by lra.
  assert (HSb4 : 4 <= Sb).
  { assert (HS : Sb - (7 * u - 3) * (7 * u - 3)
                 = db * (7 * (7 * b + 7 * u - 6)))
      by (unfold Sb, db; ring).
    pose proof (product_small db (7 * (7 * b + 7 * u - 6))
                  (4 / 100000000000000) 35 Hdb ltac:(lra)).
    lra. }
  assert (Hnz : 7 * b - 3 <> 0).
  { intros H0. unfold Sb in HSb4. rewrite H0 in HSb4. lra. }
  assert (Ha1 : 1 - a <> 0) by (unfold a; nra).
  assert (Hw : 2 / ((1 - a) * (20 * zp * (7 * b - 3) / 8)
                    * (20 * zp * (7 * b - 3) / 8)) = / X).
  { unfold X, Sb, b. field. repeat split; try assumption; lra. }
  replace (20 * zp * (7 * (zp * zp) - 3) / 8)
    with (20 * zp * (7 * b - 3) / 8) by (unfold b; ring).
  rewrite Hw.
  replace (7 / (3 * (5 * u + 3))) with (/ T) by (unfold T; field; lra).
  replace (/ X - / T) with ((T - X) * / (X * T)) by (field; lra).
  assert (HXT1 : 3 / 2 <= X * T).
  { assert (1 * (3 / 2) <= X * T) by (apply Rmult_le_compat; lra). lra. }
  assert (Hinv : 0 < / (X * T) <= 2 / 3).
  { split; [apply Rinv_0_lt_compat; lra|].
    replace (2 / 3) with (/ (3 / 2)) by field.
    apply Rinv_le_contravar; lra. }
  apply Rabs_le.
  pose proof (product_small (T - X) (/ (X * T))
                (4 / 1000000000000) (2 / 3) ltac:(lra) ltac:(lra)).
  lra.
Qed.

Lemma quotient_small (d m q eps : R) :
  d * m = q -> 21 <= m -> - eps <= q <= eps ->
  - (eps / 21) <= d <= eps / 21.
Proof.
  intros Hq Hm He.
  assert (He0 : 0 <= eps) by lra.
  split.
  - destruct (Rle_dec (- (eps / 21)) d) as [Hok|Hbad]; [exact Hok|exfalso].
    assert (Hd : d < 0) by lra.
    assert (H1 : (- d) * 21 <= (- d) * m) by (apply Rmult_le_compat_l; lra).
    lra.
  - destruct (Rle_dec d (eps / 21)) as [Hok|Hbad]; [exact Hok|exfalso].
    assert (Hd : 0 < d) by lra.
    assert (H1 : d * 21 <= d * m) by (apply Rmult_le_compat_l; lra).
    lra.
Qed.

Lemma near_outer_weight (z pp : R) :
  near_root (861 / 1000) (87 / 100) (z, pp) ->
  - 1 < z < 1
  /\ Rabs (2 / ((1 - z * z) * pp * pp) - gl_weight u_outer)
     <= 3 / 1000000000000.
Proof.
  intros (zp & Hz & Hzp & Hstep & Hq & Hpp). cbn [fst snd] in *.
  destruct roots_facts as (Hu1 & Hu2 & Hr1 & _ & Hfac & _).
  split; [lra|]. subst pp.
  apply Rabs_bounds in Hq. rewrite Hfac in Hq.
  assert (Hb : 741321 / 1000000 <= zp * zp <= 7569 / 10000) by nra.
  assert (Hd : - (4 / 10000000000000 / 21) <= zp * zp - u_outer
               <= 4 / 10000000000000 / 21).
  { apply (quotient_small _ (35 * (zp * zp - u_inner))
             (35 * (zp * zp - u_outer) * (zp * zp - u_inner)));
      [ring|lra|exact Hq]. }
  apply weight_close; try lra.
Qed.

Lemma near_inner_weight (z pp : R) :
  near_root (3399 / 10000) (35 / 100) (z, pp) ->
  - 1 < z < 1
  /\ Rabs (2 / ((1 - z * z) * pp * pp) - gl_weight u_inner)
     <= 3 / 1000000000000.
Proof.
  intros (zp & Hz & Hzp & Hstep & Hq & Hpp). cbn [fst snd] in *.
  destruct roots_facts as (Hu1 & Hu2 & _ & Hr2 & Hfac & _).
  split; [lra|]. subst pp.
  apply Rabs_bounds in Hq. rewrite Hfac in Hq.
  assert (Hb : 1155 / 10000 <= zp * zp <= 1225 / 10000) by nra.
  assert (Hd : - (4 / 10000000000000 / 21) <= - (zp * zp - u_inner)
               <= 4 / 10000000000000 / 21).
  { apply (quotient_small _ (35 * (u_outer - zp * zp))
             (35 * (zp * zp - u_outer) * (zp * zp - u_inner)));
      [ring|lra|exact Hq]. }
  apply weight_close; try lra.
Qed.

(** The run of [gauleg] on [[-1, 1]] with four points. *)
Lemma gauleg_four (fuel : nat) (x w : buffer R) :
  exists (z1 pp1 z2 pp2 : R) (x' w' : buffer R),
    gauleg (S (S (S (S fuel)))) (- lit 1 0)%D (lit 1 0) x w 4 = Some (x', w')
    /\ near_root (861 / 1000) (87 / 100) (z1, pp1)
    /\ near_root (3399 / 10000) (35 / 100) (z2, pp2)
    /\ (x' 0%Z = - z1 /\ x' 1%Z = - z2 /\ x' 2%Z = z2 /\ x' 3%Z = z1)
    /\ (w' 0%Z = 2 / ((1 - z1 * z1) * pp1 * pp1)
        /\ w' 1%Z = 2 / ((1 - z2 * z2) * pp2 * pp2)
        /\ w' 2%Z = 2 / ((1 - z2 * z2) * pp2 * pp2)
        /\ w' 3%Z = 2 / ((1 - z1 * z1) * pp1 * pp1)).
Proof.
  unfold gauleg. change (CInt.div (CInt.add 4 1) 2) with 2%Z.
  change (for_le 1 2) with [1%Z; 2%Z]. cbn [fold_left]. unfold gauleg_body.
  pose proof guess_four_outer as Hg1. pose proof guess_four_inner as Hg2.
  assert (Hr1 : 861 / 1000 <= guess 4 1 <= 87 / 100) by lra.
  assert (Hr2 : 3399 / 10000 <= guess 4 2 <= 35 / 100) by lra.
  destruct (newton_four_outer_stops fuel (guess 4 1) Hr1
              (quartic_guess_outer _ Hg1)) as ([z1 pp1] & -> & Hn1).
  destruct (newton_four_inner_stops fuel (guess 4 2) Hr2
              (quartic_guess_inner _ Hg2)) as ([z2 pp2] & -> & Hn2).
  change (CInt.sub 1 1) with 0%Z. change (CInt.sub 2 1) with 1%Z.
  change (CInt.sub (CInt.sub (CInt.add 4 1) 1) 1) with 3%Z.
  change (CInt.sub (CInt.sub (CInt.add 4 1) 2) 1) with 2%Z.
  exists z1, pp1, z2, pp2. eexists. eexists.
  split; [reflexivity|]. split; [exact Hn1|]. split; [exact Hn2|].
  unfold store. cbn [Z.eqb Pos.eqb]. exact_ops.
  split; [repeat split; lra|]. repeat split; f_equal; lra.
Qed.

(** *** The colatitudes of the Gauss-Legendre sampling *)

Lemma acos_loop {D : Type} `{Libm D} (th : buffer D) (n : nat) (j : Z) :
  fold_left (fun th t => store th t (dacos (th t)))
    (for_le 0 (Z.of_nat n - 1)) th j
  = if ((0 <=? j) && (j <=? Z.of_nat n - 1))%Z then dacos (th j) else th j.
Proof.
  induction n as [|n IH].
  - rewrite for_le_empty by lia. cbn [fold_left].
    destruct (Z.leb_spec 0 j); destruct (Z.leb_spec j (Z.of_nat 0 - 1));
      cbn [andb]; try reflexivity; lia.
  - rewrite for_le_snoc by lia.
    replace (Z.of_nat (S n) - 1 - 1)%Z with (Z.of_nat n - 1)%Z by lia.
    rewrite fold_left_app. cbn [fold_left]. unfold store at 1.
    destruct (Z.eqb_spec j (Z.of_nat (S n) - 1)) as [->|Hne].
    + assert (Hprev :
        fold_left (fun th t => store th t (dacos (th t)))
          (for_le 0 (Z.of_nat n - 1)) th (Z.of_nat (S n) - 1)%Z
        = th (Z.of_nat (S n) - 1)%Z).
      { clear IH. revert th.
        assert (Hgen : forall (l : list Z) (th : buffer D) (k : Z),
                   ~ In k l ->
                   fold_left (fun th t => store th t (dacos (th t))) l th k
                   = th k).
        { induction l as [|a l IHl]; intros th0 k Hk; [reflexivity|].
          cbn [fold_left]. rewrite IHl by (intros Hin; apply Hk; right; exact Hin).
          unfold store. destruct (Z.eqb_spec k a) as [->|_]; [|reflexivity].
          exfalso. apply Hk. left. reflexivity. }
        intros th. apply Hgen. rewrite in_for_le. lia. }
      rewrite Hprev.
      destruct (Z.leb_spec 0 (Z.of_nat (S n) - 1));
        destruct (Z.leb_spec (Z.of_nat (S n) - 1) (Z.of_nat (S n) - 1));
        cbn [andb]; try reflexivity; lia.
    + rewrite IH.
      destruct (Z.leb_spec 0 j); destruct (Z.leb_spec j (Z.of_nat n - 1));
        destruct (Z.leb_spec j (Z.of_nat (S n) - 1));
        cbn [andb]; try reflexivity; lia.
Qed.

(** C4, in the exact reading: [ssht_sampling_gl_thetas_weights] runs
    [gauleg] on [[-1, 1]] with [n = L], fails when it fails, and otherwise
    returns the weights of [gauleg] unchanged and, at each index
    [0 <= t <= L-1], the arccosine of the abscissa [gauleg] left there.
    For [L = 4] it returns; the four colatitudes lie strictly between 0 and
    pi, and the four weights sum to 2 within [1e-10]. *)
Theorem gl_thetas_weights_spec (fuel : nat) (thetas weights x w' : buffer R)
    (L : Z) :
  (1 <= L < CInt.INT_MAX)%Z -> (4 <= fuel)%nat ->
  (gauleg fuel (- lit 1 0)%D (lit 1 0) thetas weights L = None ->
   ssht_sampling_gl_thetas_weights fuel thetas weights L = None)
  /\ (gauleg fuel (- lit 1 0)%D (lit 1 0) thetas weights L = Some (x, w') ->
      exists th' : buffer R,
        ssht_sampling_gl_thetas_weights fuel thetas weights L
        = Some (th', w')
        /\ forall t : Z,
             th' t = if ((0 <=? t) && (t <=? L - 1))%Z then acos (x t)
                     else x t)
  /\ exists th4 w4 : buffer R,
       ssht_sampling_gl_thetas_weights fuel thetas weights 4
       = Some (th4, w4)
       /\ (forall t : Z, (0 <= t <= 3)%Z -> 0 < th4 t < PI)
       /\ Rabs (w4 0%Z + w4 1%Z + w4 2%Z + w4 3%Z - 2)
          <= 1 / 10000000000.
Proof.
  intros HL Hfuel. split; [|split].
  - intros Hnone. unfold ssht_sampling_gl_thetas_weights. rewrite Hnone.
    reflexivity.
  - intros Hsome. unfold ssht_sampling_gl_thetas_weights. rewrite Hsome.
    eexists. split; [reflexivity|]. intros t.
    unfold CInt.sub. rewrite wrap_in_range
      by (unfold CInt.in_range, CInt.INT_MIN, CInt.INT_MAX in *; lia).
    replace (L - 1)%Z with (Z.of_nat (Z.to_nat L) - 1)%Z by lia.
    exact (acos_loop (D := R) x (Z.to_nat L) t).
  - destruct fuel as [|[|[|[|fuel]]]]; try lia.
    destruct (gauleg_four fuel thetas weights)
      as (z1 & pp1 & z2 & pp2 & x4 & w4 & Hrun & Hn1 & Hn2
          & (Hx0 & Hx1 & Hx2 & Hx3) & (Hw0 & Hw1 & Hw2 & Hw3)).
    destruct (near_outer_weight z1 pp1 Hn1) as [Hz1 Hc1].
    destruct (near_inner_weight z2 pp2 Hn2) as [Hz2 Hc2].
    unfold ssht_sampling_gl_thetas_weights. rewrite Hrun.
    eexists. eexists. split; [reflexivity|]. split.
    + intros t Ht. change (CInt.sub 4 1) with (Z.of_nat 4 - 1)%Z.
      rewrite (acos_loop (D := R) x4 4 t).
      replace ((0 <=? t) && (t <=? Z.of_nat 4 - 1))%Z with true
        by (symmetry; apply andb_true_intro; split; apply Z.leb_le; lia).
      cbn [dacos Exact.libm]. apply acos_bound_lt.
      assert (Ht4 : t = 0%Z \/ t = 1%Z \/ t = 2%Z \/ t = 3%Z) by lia.
      destruct Ht4 as [Ht4|[Ht4|[Ht4|Ht4]]]; subst t; lra.
    + rewrite Hw0, Hw1, Hw2, Hw3.
      destruct roots_facts as (_ & _ & _ & _ & _ & Hsum).
      apply Rabs_bounds in Hc1. apply Rabs_bounds in Hc2.
      apply Rabs_le. lra.
Qed.

Lemma gl_thetas_weights_spec_witness :
  (gauleg 4 (- lit 1 0)%D (lit 1 0) (fun _ => 0) (fun _ => 0) 4 = None ->
   ssht_sampling_gl_thetas_weights 4 (fun _ => 0) (fun _ => 0) 4 = None)
  /\ (gauleg 4 (- lit 1 0)%D (lit 1 0) (fun _ => 0) (fun _ => 0) 4
      = Some (fun _ => 0, fun _ => 0) ->
      exists th' : buffer R,
        ssht_sampling_gl_thetas_weights 4 (fun _ => 0) (fun _ => 0) 4
        = Some (th', fun _ => 0)
        /\ forall t : Z,
             th' t = if ((0 <=? t) && (t <=? 4 - 1))%Z then acos 0 else 0)
  /\ exists th4 w4 : buffer R,
       ssht_sampling_gl_thetas_weights 4 (fun _ => 0) (fun _ => 0) 4
       = Some (th4, w4)
       /\ (forall t : Z, (0 <= t <= 3)%Z -> 0 < th4 t < PI)
       /\ Rabs (w4 0%Z + w4 1%Z + w4 2%Z + w4 3%Z - 2)
          <= 1 / 10000000000.
Proof.
  apply (gl_thetas_weights_spec 4 (fun _ => 0) (fun _ => 0)
           (fun _ => 0) (fun _ => 0) 4); [unfold CInt.INT_MAX|]; lia.
Defined.

End GaussLegendre.

(** *** Binary64: one point *)

Lemma SFeqb_refl_finite (x : B64.double) :
  finite_double x = true -> SFeqb x x = true.
Proof.
  destruct x as [s|s| |s m e]; intros Hf; try discriminate.
  - reflexivity.
  - unfold SFeqb, SFcompare. rewrite Z.compare_refl.
    destruct s; rewrite ?Pos.compare_cont_refl; reflexivity.
Qed.

(** Adding the product of a finite double and [+0.0] leaves a finite double
    as it is, up to the sign of a zero. *)
Lemma add_mul_zero (xm xl : B64.double) :
  finite_double xm = true -> finite_double xl = true ->
  SFeqb (xm + xl * S754_zero false)%D xm = true.
Proof.
  intros Hm Hl.
  destruct xl as [sl|sl| |sl ml el]; try discriminate;
    destruct xm as [sm|sm| |sm mm em]; try discriminate;
    try (destruct sl, sm; reflexivity);
    try (destruct sl; apply (SFeqb_refl_finite (S754_finite sm mm em));
         reflexivity).
Qed.

(** With one point, and with the cosine of the first guess as libm rounds
    it, the loop is left after two passes with the root [+0.0] and the
    derivative [1.0]. *)
Lemma newton_one_binary64 (fuel : nat) :
  newton (S (S fuel)) 1 mid_cos = Some (S754_zero false, lit 1 0).
Proof.
  assert (H1 : fst (newton_step 1 mid_cos) = S754_zero false)
    by (vm_compute; reflexivity).
  assert (H2 : again (S754_zero false) mid_cos = true)
    by (vm_compute; reflexivity).
  assert (H3 : newton_step 1 (S754_zero false) = (S754_zero false, lit 1 0))
    by (vm_compute; reflexivity).
  assert (H4 : again (S754_zero false) (S754_zero false) = false)
    by (vm_compute; reflexivity).
  rewrite newton_S, H1, H2, newton_S, H3. cbn [fst]. rewrite H4.
  reflexivity.
Qed.

Lemma gauleg_one_run (M : Libm B64.double) (fuel : nat)
    (x1 x2 : B64.double) (x w : buffer B64.double) :
  dcos mid_arg = mid_cos ->
  exists x' w' : buffer B64.double,
    gauleg (S (S fuel)) x1 x2 x w 1 = Some (x', w')
    /\ x' 0 = (lit 5 (-1) * (x2 + x1)
               + lit 5 (-1) * (x2 - x1) * S754_zero false)%D
    /\ w' 0 = (lit 2 0 * (lit 5 (-1) * (x2 - x1)) / lit 1 0)%D
    /\ forall j : Z, j <> 0 -> x' j = x j /\ w' j = w j.
Proof.
  intros Hcos. unfold gauleg.
  change (CInt.div (CInt.add 1 1) 2) with 1.
  change (for_le 1 1) with [1]. cbn [fold_left]. unfold gauleg_body.
  assert (Hguess : guess 1 1 = mid_cos).
  { unfold guess.
    replace (lit 3141592654 (-9) * (of_int 1 - lit 25 (-2))
             / (of_int 1 + lit 5 (-1)))%D with mid_arg
      by (vm_compute; reflexivity).
    exact Hcos. }
  rewrite Hguess, newton_one_binary64.
  change (CInt.sub (CInt.sub (CInt.add 1 1) 1) 1) with 0.
  change (CInt.sub 1 1) with 0.
  assert (Hden : ((lit 1 0 - S754_zero false * S754_zero false)
                  * lit 1 0 * lit 1 0)%D = (lit 1 0 : B64.double))
    by (vm_compute; reflexivity).
  rewrite Hden. eexists. eexists. split; [reflexivity|].
  unfold store. rewrite !Z.eqb_refl.
  split; [reflexivity|]. split; [reflexivity|].
  intros j Hj. destruct (Z.eqb_spec j 0) as [E|_]; [contradiction|].
  split; reflexivity.
Qed.

(** C5, as the code has it, in binary64 and with the cosine of the first
    guess as libm rounds it: with [n = 1] and bounds [x1 < x2] for which
    [0.5*(x2+x1)] and [0.5*(x2-x1)] are finite, [gauleg] returns, its loop
    being left after two passes; it writes one node, [x[0]], which compares
    equal to [0.5*(x2+x1)], the midpoint as binary64 computes it, and one
    weight, [w[0] = 2.0*(0.5*(x2-x1))/1.0], which is [x2 - x1] up to the
    rounding of these operations; and nothing else. *)
Theorem gauleg_one_point_binary64 (fuel : nat) (x1 x2 : B64.double)
    (x w : buffer B64.double) :
  (2 <= fuel)%nat ->
  SFltb x1 x2 = true ->
  finite_double (lit 5 (-1) * (x2 + x1))%D = true ->
  finite_double (lit 5 (-1) * (x2 - x1))%D = true ->
  forall M : Libm B64.double,
    dcos mid_arg = mid_cos ->
    exists x' w' : buffer B64.double,
      gauleg fuel x1 x2 x w 1 = Some (x', w')
      /\ SFeqb (x' 0) (lit 5 (-1) * (x2 + x1))%D = true
      /\ w' 0 = (lit 2 0 * (lit 5 (-1) * (x2 - x1)) / lit 1 0)%D
      /\ forall j : Z, j <> 0 -> x' j = x j /\ w' j = w j.
Proof.
  intros Hfuel _ Hm Hl M Hcos.
  destruct fuel as [|[|fuel]]; try lia.
  destruct (gauleg_one_run M fuel x1 x2 x w Hcos)
    as (x' & w' & Hrun & Hx & Hw & Hframe).
  exists x', w'. split; [exact Hrun|]. split; [|split; assumption].
  rewrite Hx. apply add_mul_zero; assumption.
Qed.

Lemma gauleg_one_point_binary64_witness :
  SFltb (- lit 1 0)%D (lit 1 0 : B64.double) = true
  /\ forall M : Libm B64.double,
       dcos mid_arg = mid_cos ->
       exists x' w' : buffer B64.double,
         gauleg 2 (- lit 1 0)%D (lit 1 0)
           (fun _ => lit 0 0) (fun _ => lit 0 0) 1 = Some (x', w')
         /\ SFeqb (x' 0) (lit 5 (-1) * (lit 1 0 + - lit 1 0))%D = true
         /\ w' 0 = (lit 2 0 * (lit 5 (-1) * (lit 1 0 - - lit 1 0))
                    / lit 1 0)%D
         /\ forall j : Z, j <> 0 -> x' j = lit 0 0 /\ w' j = lit 0 0.
Proof.
  split; [vm_compute; reflexivity|].
  apply (gauleg_one_point_binary64 2 (- lit 1 0)%D (lit 1 0)
           (fun _ => lit 0 0) (fun _ => lit 0 0));
    [lia|vm_compute; reflexivity..].
Defined.

(** C5 as stated fails for bounds whose sum or difference is not a double:
    on [[-1.5e308, 1.5e308]] the half-length is [+inf], the node stored is
    a NaN and the weight [+inf]; on [[1e308, 1.7e308]], whose midpoint
    [1.35e308] is a double, the node stored is [+inf]. *)
Lemma gauleg_one_point_overflow :
  SFltb (- lit 15 307)%D (lit 15 307 : B64.double) = true
  /\ SFltb (lit 1 308) (lit 17 307 : B64.double) = true
  /\ forall M : Libm B64.double,
       dcos mid_arg = mid_cos ->
       forall x w : buffer B64.double,
         (exists x' w' : buffer B64.double,
            gauleg 2 (- lit 15 307)%D (lit 15 307) x w 1 = Some (x', w')
            /\ x' 0 = S754_nan /\ w' 0 = S754_infinity false)
         /\ (exists x' w' : buffer B64.double,
               gauleg 2 (lit 1 308) (lit 17 307) x w 1 = Some (x', w')
               /\ x' 0 = S754_infinity false).
Proof.
  split; [vm_compute; reflexivity|]. split; [vm_compute; reflexivity|].
  intros M Hcos x w. split.
  - destruct (gauleg_one_run M 0 (- lit 15 307)%D (lit 15 307) x w Hcos)
      as (x' & w' & Hrun & Hx & Hw & _).
    exists x', w'. split; [exact Hrun|]. rewrite Hx, Hw.
    split; vm_compute; reflexivity.
  - destruct (gauleg_one_run M 0 (lit 1 308) (lit 17 307) x w Hcos)
      as (x' & w' & Hrun & Hx & _ & _).
    exists x', w'. split; [exact Hrun|]. rewrite Hx.
    vm_compute. reflexivity.
Qed.

(** *** Binary64: the middle node of an odd rule *)

(** With three points the middle root is left at [+0]. *)
Lemma newton_middle_three :
  exists pp : B64.double, newton 2 3 mid_cos = Some (S754_zero false, pp).
Proof. eexists. vm_compute. reflexivity. Qed.


(** ** Harmonic indices *)

(** *** Binary64: the square root of an [int], converted back to [int] *)

Lemma Zdigits2_log2 (p : positive) : Zpos (digits2_pos p) = Z.log2 (Zpos p) + 1.
Proof.
  induction p as [p IH|p IH|]; cbn [digits2_pos]; try reflexivity.
  - rewrite Pos2Z.inj_succ, IH.
    change (Z.log2 (Z.pos p~1)) with (Z.pos (Pos.size p)).
    destruct p; cbn; lia.
  - rewrite Pos2Z.inj_succ, IH.
    change (Z.log2 (Z.pos p~0)) with (Z.pos (Pos.size p)).
    destruct p; cbn; lia.
Qed.

Lemma Zdigits2_bounds (q d : Z) :
  0 < d -> 2 ^ (d - 1) <= q < 2 ^ d -> Zdigits2 q = d.
Proof.
  intros Hd Hq.
  assert (Hpos : 0 < q).
  { pose proof (Z.pow_pos_nonneg 2 (d - 1) ltac:(lia) ltac:(lia)). lia. }
  destruct q as [|p|p]; try lia. cbn [Zdigits2].
  rewrite Zdigits2_log2.
  rewrite (Z.log2_unique (Z.pos p) (d - 1)); [lia|lia|].
  replace (Z.succ (d - 1)) with d by lia. exact Hq.
Qed.

Lemma iter_xO_pow2 (p k : positive) :
  Z.pos (Pos.iter xO p k) = Z.pos p * 2 ^ Z.pos k.
Proof.
  induction k as [|k IH] using Pos.peano_ind.
  - cbn [Pos.iter]. lia.
  - rewrite Pos.iter_succ, Pos2Z.inj_succ, Z.pow_succ_r by lia.
    rewrite Pos2Z.inj_xO, IH. ring.
Qed.

Lemma fexp_normal (e : Z) : -1074 + 53 <= e -> fexp B64.prec B64.emax e = e - 53.
Proof. unfold fexp, emin, B64.prec, B64.emax. lia. Qed.

Lemma shr_fexp_normal (m e : Z) (l : location) :
  2 ^ 52 <= m < 2 ^ 53 -> -1074 <= e ->
  shr_fexp B64.prec B64.emax m e l = (shr_record_of_loc m l, e).
Proof.
  intros Hm He. unfold shr_fexp.
  rewrite (Zdigits2_bounds m 53) by (cbn; lia).
  rewrite fexp_normal by lia.
  replace (53 + e - 53 - e) with 0 by lia. reflexivity.
Qed.

Lemma loc_of_shr_record_of_loc (m : Z) (l : location) :
  loc_of_shr_record (shr_record_of_loc m l) = l
  /\ shr_m (shr_record_of_loc m l) = m.
Proof. destruct l as [|[]]; split; reflexivity. Qed.

Lemma binary_round_aux_normal (m e : Z) (l : location) :
  2 ^ 52 <= m < 2 ^ 53 -> -1074 <= e <= 971 ->
  round_nearest_even m l < 2 ^ 53 ->
  binary_round_aux B64.prec B64.emax false m e l
  = S754_finite false (Z.to_pos (round_nearest_even m l)) e.
Proof.
  intros Hm He Hr. unfold binary_round_aux.
  rewrite shr_fexp_normal by lia.
  destruct (loc_of_shr_record_of_loc m l) as [-> ->].
  assert (Hge : m <= round_nearest_even m l).
  { unfold round_nearest_even. destruct l as [|[]]; try lia.
    destruct (Z.even m); lia. }
  rewrite shr_fexp_normal by lia.
  cbn [shr_m shr_record_of_loc].
  destruct (round_nearest_even m l) as [|r|r] eqn:Er; try lia.
  replace (e <=? B64.emax - B64.prec) with true
    by (symmetry; apply Z.leb_le; unfold B64.emax, B64.prec; lia).
  reflexivity.
Qed.

Lemma of_Z_normal (ind d : Z) :
  1 <= d <= 52 -> 2 ^ (d - 1) <= ind < 2 ^ d ->
  2 ^ 52 <= ind * 2 ^ (53 - d) < 2 ^ 53
  /\ B64.of_Z ind = S754_finite false (Z.to_pos (ind * 2 ^ (53 - d))) (d - 53).
Proof.
  intros Hd Hind.
  assert (Hp52 : 2 ^ (d - 1) * 2 ^ (53 - d) = 2 ^ 52).
  { rewrite <- Z.pow_add_r by lia. f_equal. lia. }
  assert (Hp53 : 2 ^ d * 2 ^ (53 - d) = 2 ^ 53).
  { rewrite <- Z.pow_add_r by lia. f_equal. lia. }
  assert (Hpp : 0 < 2 ^ (53 - d)) by (apply Z.pow_pos_nonneg; lia).
  assert (Hm : 2 ^ 52 <= ind * 2 ^ (53 - d) < 2 ^ 53) by nia.
  split; [exact Hm|].
  pose proof (Zdigits2_bounds ind d ltac:(lia) Hind) as Hdig.
  destruct ind as [|p|p]; try lia. cbn [Zdigits2] in Hdig.
  unfold B64.of_Z, binary_normalize, binary_round.
  rewrite Hdig, fexp_normal by lia.
  unfold shl_align.
  destruct (d + 0 - 53 - 0) as [|k|k] eqn:Ek; try lia.
  assert (Hk : Z.pos k = 53 - d) by lia.
  rewrite <- Hk in *.
  rewrite binary_round_aux_normal.
  - cbn [round_nearest_even]. rewrite iter_xO_pow2.
    f_equal. lia.
  - rewrite iter_xO_pow2. exact Hm.
  - lia.
  - cbn [round_nearest_even]. rewrite iter_xO_pow2. lia.
Qed.

Lemma sqrt_core_normal (m ex : Z) :
  2 ^ 52 <= m < 2 ^ 53 -> -52 <= ex <= -22 ->
  SFsqrt_core_binary B64.prec B64.emax m ex
  = let e' := (ex + 54) / 2 - 53 in
    let (q, r) := Z.sqrtrem (m * 2 ^ (ex - 2 * e')) in
    (q, e',
     if r =? 0 then loc_Exact
     else loc_Inexact (if r <=? q then Lt else Gt)).
Proof.
  intros Hm Hex. unfold SFsqrt_core_binary.
  rewrite (Zdigits2_bounds m 53) by (cbn; lia).
  rewrite !Z.div2_div.
  replace (53 + ex + 1) with (ex + 54) by lia.
  rewrite fexp_normal by (pose proof (Z.div_pos (ex + 54) 2); lia).
  assert (Hh : 2 * ((ex + 54) / 2) <= ex + 54 < 2 * ((ex + 54) / 2) + 2).
  { pose proof (Z.mul_div_le (ex + 54) 2 ltac:(lia)).
    pose proof (Z.mul_succ_div_gt (ex + 54) 2 ltac:(lia)). lia. }
  assert (Hh2 : 2 * (ex / 2) <= ex < 2 * (ex / 2) + 2).
  { pose proof (Z.mul_div_le ex 2 ltac:(lia)).
    pose proof (Z.mul_succ_div_gt ex 2 ltac:(lia)). lia. }
  rewrite Z.min_l by lia.
  cbv zeta.
  destruct (ex - Z.pos 2 * ((ex + 54) / 2 - 53)) as [|s|s] eqn:Es; try lia.
  rewrite Z.shiftl_mul_pow2 by lia.
  replace (ex - 2 * ((ex + 54) / 2 - 53)) with (Z.pos s) by lia.
  reflexivity.
Qed.

Lemma sqrt_scale (n P : Z) :
  0 <= n -> 0 < P ->
  Z.sqrt n * P <= Z.sqrt (n * (P * P)) < (Z.sqrt n + 1) * P.
Proof.
  intros Hn HP. pose proof (Z.sqrt_spec n Hn) as Hs. cbv zeta in Hs.
  pose proof (Z.sqrt_nonneg n) as Hk.
  set (k := Z.sqrt n) in *.
  split.
  - apply Z.sqrt_le_square; nia.
  - apply Z.sqrt_lt_square; nia.
Qed.

Lemma div_between (q k P : Z) : 0 < P -> k * P <= q < (k + 1) * P -> q / P = k.
Proof.
  intros HP Hq. symmetry. apply (Z.div_unique q P k (q - k * P)); lia.
Qed.

(** Rounding the square root up never reaches the next integer. *)
Lemma sqrt_round_up (n P q r : Z) :
  0 <= n < 2 ^ 31 -> 2 ^ 17 <= P ->
  n * (P * P) = q * q + r -> 0 <= r <= 2 * q -> q < r ->
  Z.sqrt n * P <= q < (Z.sqrt n + 1) * P ->
  q + 1 < (Z.sqrt n + 1) * P.
Proof.
  intros Hn HP HM Hr Hup Hq.
  pose proof (Z.sqrt_spec n ltac:(lia)) as Hs. cbv zeta in Hs.
  pose proof (Z.sqrt_nonneg n) as Hk.
  assert (Hk16 : Z.sqrt n < 2 ^ 16).
  { apply Z.sqrt_lt_square; lia. }
  set (k := Z.sqrt n) in *.
  destruct (Z.eq_dec (q + 1) ((k + 1) * P)) as [Heq|Hne]; [|lia].
  exfalso.
  assert (Hq' : q = (k + 1) * P - 1) by lia.
  assert (HnP : n * (P * P) <= ((k + 1) * (k + 1) - 1) * (P * P)).
  { apply Z.mul_le_mono_nonneg_r; [nia|]. unfold Z.succ in Hs. lia. }
  assert (Hlow : ((k + 1) * P - 1) * ((k + 1) * P - 1) + ((k + 1) * P - 1) + 1
                 <= n * (P * P)).
  { rewrite HM, Hq'. lia. }
  assert (HPP : P * P + 1 <= (k + 1) * P) by nia.
  assert (P * P >= 2 ^ 17 * P) by nia.
  nia.
Qed.

Lemma sqrt_of_int (ind : Z) :
  0 <= ind < 2 ^ 31 ->
  B64.int_of (SFsqrt B64.prec B64.emax (B64.of_Z ind)) = Z.sqrt ind.
Proof.
  intros Hind. destruct (Z.eq_dec ind 0) as [->|Hnz]; [reflexivity|].
  set (d := Z.log2 ind + 1).
  assert (Hd : 2 ^ (d - 1) <= ind < 2 ^ d).
  { pose proof (Z.log2_spec ind ltac:(lia)) as Hl. unfold d.
    replace (Z.log2 ind + 1 - 1) with (Z.log2 ind) by lia.
    replace (Z.log2 ind + 1) with (Z.succ (Z.log2 ind)) by lia. exact Hl. }
  assert (Hd31 : 1 <= d <= 31).
  { unfold d. pose proof (Z.log2_nonneg ind).
    pose proof (proj1 (Z.log2_lt_pow2 ind 31 ltac:(lia)) ltac:(lia)). lia. }
  destruct (of_Z_normal ind d ltac:(lia) Hd) as [Hm ->].
  set (m := ind * 2 ^ (53 - d)) in *.
  unfold SFsqrt.
  assert (Hmp : Z.pos (Z.to_pos m) = m) by (apply Z2Pos.id; lia).
  rewrite Hmp, sqrt_core_normal by lia. cbv zeta.
  set (t := 53 - (d - 53 + 54) / 2).
  assert (Ht : 2 * (53 - t) <= d + 1 < 2 * (53 - t) + 2).
  { unfold t.
    pose proof (Z.mul_div_le (d - 53 + 54) 2 ltac:(lia)).
    pose proof (Z.mul_succ_div_gt (d - 53 + 54) 2 ltac:(lia)). lia. }
  replace ((d - 53 + 54) / 2 - 53) with (- t) by (unfold t; lia).
  assert (HM : m * 2 ^ (d - 53 - 2 * - t) = ind * (2 ^ t * 2 ^ t)).
  { unfold m. rewrite <- Z.mul_assoc, <- !Z.pow_add_r by lia.
    do 2 f_equal. lia. }
  rewrite HM.
  assert (HP : 2 ^ 37 <= 2 ^ t) by (apply Z.pow_le_mono_r; lia).
  pose proof (Z.sqrtrem_spec (ind * (2 ^ t * 2 ^ t)) ltac:(nia)) as Hspec.
  pose proof (Z.sqrtrem_sqrt (ind * (2 ^ t * 2 ^ t))) as Hfst.
  destruct (Z.sqrtrem (ind * (2 ^ t * 2 ^ t))) as [q r].
  cbn [fst] in Hfst. destruct Hspec as [Hqr Hr].
  pose proof (sqrt_scale ind (2 ^ t) ltac:(lia) ltac:(lia)) as Hsc.
  rewrite <- Hfst in Hsc.
  assert (Hq : 2 ^ 52 <= q < 2 ^ 53).
  { split.
    - rewrite Hfst. apply Z.sqrt_le_square; [nia|lia|].
      rewrite <- HM. 
      assert (2 ^ 52 <= 2 ^ (d - 53 - 2 * - t)) by (apply Z.pow_le_mono_r; lia).
      nia.
    - rewrite Hfst. apply Z.sqrt_lt_square; [nia|lia|].
      rewrite <- HM.
      assert (2 ^ (d - 53 - 2 * - t) <= 2 ^ 53) by (apply Z.pow_le_mono_r; lia).
      nia. }
  set (l := if r =? 0 then loc_Exact
            else loc_Inexact (if r <=? q then Lt else Gt)).
  assert (Hround : Z.sqrt ind * 2 ^ t <= round_nearest_even q l
                   < (Z.sqrt ind + 1) * 2 ^ t
                   /\ 0 < round_nearest_even q l < 2 ^ 53).
  { unfold l. destruct (Z.eqb_spec r 0) as [Hr0|Hr0]; cbn [round_nearest_even].
    - lia.
    - destruct (Z.leb_spec r q) as [Hle|Hgt]; [lia|].
      pose proof (sqrt_round_up ind (2 ^ t) q r ltac:(lia) ltac:(lia)
                    Hqr Hr Hgt Hsc) as Hup.
      split; [lia|].
      assert (Hkh : Z.sqrt ind < 2 ^ (53 - t)).
      { apply Z.sqrt_lt_square; [lia|apply Z.pow_nonneg; lia|].
        rewrite <- Z.pow_add_r by lia.
        assert (2 ^ d <= 2 ^ (53 - t + (53 - t)))
          by (apply Z.pow_le_mono_r; lia).
        lia. }
      assert (Ht53 : 2 ^ (53 - t) * 2 ^ t = 2 ^ 53).
      { rewrite <- Z.pow_add_r by lia. f_equal. lia. }
      nia. }
  destruct Hround as [Hrange [Hgt0 Hlt]].
  rewrite binary_round_aux_normal by lia.
  unfold B64.int_of, B64.trunc.
  destruct (- t) as [|k|k] eqn:Ek; try lia.
  assert (Hk : Z.pos k = t) by lia.
  cbn [cond_Zopp]. rewrite Z2Pos.id by lia. rewrite Hk.
  rewrite (div_between _ (Z.sqrt ind) (2 ^ t)) by lia.
  assert (Hs : 0 <= Z.sqrt ind < 2 ^ 16).
  { split; [apply Z.sqrt_nonneg|apply Z.sqrt_lt_square; lia]. }
  replace (CInt.INT_MIN <=? Z.sqrt ind) with true
    by (symmetry; apply Z.leb_le; unfold CInt.INT_MIN; lia).
  replace (Z.sqrt ind <=? CInt.INT_MAX) with true
    by (symmetry; apply Z.leb_le; unfold CInt.INT_MAX; lia).
  reflexivity.
Qed.

(** *** The two index maps *)

Lemma wrap_add_l (a b : Z) : CInt.wrap (CInt.wrap a + b) = CInt.wrap (a + b).
Proof.
  apply wrap_eqm. replace (CInt.wrap a + b - (a + b)) with (CInt.wrap a - a)
    by lia.
  apply wrap_wrap_sub.
Qed.

Lemma elm2ind_exact (el m : Z) :
  CInt.in_range (el * el + el + m) ->
  ssht_sampling_elm2ind el m = el * el + el + m.
Proof.
  intros Hr. unfold ssht_sampling_elm2ind, CInt.add, CInt.mul.
  rewrite wrap_add_l, <- (wrap_in_range _ Hr). apply wrap_eqm.
  replace (CInt.wrap (el * el) + el + m - (el * el + el + m))
    with (CInt.wrap (el * el) - el * el) by lia.
  apply wrap_wrap_sub.
Qed.

Lemma ind2elm_b64 (ind : Z) :
  0 <= ind <= CInt.INT_MAX ->
  ssht_sampling_ind2elm (D := B64.double) ind
  = (Z.sqrt ind, ind - Z.sqrt ind * Z.sqrt ind - Z.sqrt ind).
Proof.
  unfold CInt.INT_MAX. intros Hind. unfold ssht_sampling_ind2elm.
  cbn [to_int dsqrt of_int B64.ops]. rewrite sqrt_of_int by lia.
  pose proof (Z.sqrt_spec ind ltac:(lia)) as Hs. cbv zeta in Hs.
  pose proof (Z.sqrt_nonneg ind) as Hk.
  set (k := Z.sqrt ind) in *. unfold Z.succ in Hs.
  unfold CInt.sub, CInt.mul.
  rewrite (wrap_in_range (k * k))
    by (unfold CInt.in_range, CInt.INT_MIN, CInt.INT_MAX; lia).
  rewrite (wrap_in_range (ind - k * k))
    by (unfold CInt.in_range, CInt.INT_MIN, CInt.INT_MAX; lia).
  rewrite wrap_in_range
    by (unfold CInt.in_range, CInt.INT_MIN, CInt.INT_MAX; nia).
  reflexivity.
Qed.

(** C1, as the code has it, in binary64: for [el >= 0] and [-el <= m <= el]
    whose index [el*el + el + m] is an [int], [ssht_sampling_ind2elm] takes
    [ssht_sampling_elm2ind el m] back to [(el, m)]; and for every [int]
    [ind >= 0], [ssht_sampling_elm2ind] takes the pair that
    [ssht_sampling_ind2elm ind] returns back to [ind].  The degree is the
    truncation of the correctly rounded binary64 square root. *)
Theorem harmonic_index_roundtrip (el m ind : Z) :
  0 <= el -> - el <= m <= el -> el * el + el + m <= CInt.INT_MAX ->
  0 <= ind <= CInt.INT_MAX ->
  ssht_sampling_ind2elm (D := B64.double) (ssht_sampling_elm2ind el m)
  = (el, m)
  /\ ssht_sampling_elm2ind
       (fst (ssht_sampling_ind2elm (D := B64.double) ind))
       (snd (ssht_sampling_ind2elm (D := B64.double) ind))
     = ind.
Proof.
  intros Hel Hm Hmax Hind. split.
  - rewrite elm2ind_exact
      by (unfold CInt.in_range, CInt.INT_MIN, CInt.INT_MAX in *; nia).
    rewrite ind2elm_b64 by nia.
    assert (Hs : Z.sqrt (el * el + el + m) = el)
      by (apply Z.sqrt_unique; unfold Z.succ; nia).
    rewrite Hs. f_equal. lia.
  - rewrite ind2elm_b64 by exact Hind. cbn [fst snd].
    rewrite elm2ind_exact.
    + lia.
    + unfold CInt.in_range, CInt.INT_MIN, CInt.INT_MAX in *. lia.
Qed.

Lemma harmonic_index_roundtrip_witness :
  ssht_sampling_ind2elm (D := B64.double) (ssht_sampling_elm2ind 2 1)
  = (2, 1)
  /\ ssht_sampling_elm2ind
       (fst (ssht_sampling_ind2elm (D := B64.double) 7))
       (snd (ssht_sampling_ind2elm (D := B64.double) 7))
     = 7.
Proof.
  apply (harmonic_index_roundtrip 2 1 7); unfold CInt.INT_MAX; lia.
Defined.

(** C1 as stated fails where [el*el] leaves the range of [int]: for
    [el = 65536], [m = 0] the index wraps to 65536, and the pair recovered
    from it is [(256, -256)]. *)
Lemma elm2ind_overflow :
  0 <= 65536 /\ - 65536 <= 0 <= 65536
  /\ ssht_sampling_elm2ind 65536 0 = 65536
  /\ ssht_sampling_ind2elm (D := B64.double) (ssht_sampling_elm2ind 65536 0)
     = (256, -256).
Proof. repeat split; try lia; vm_compute; congruence. Qed.

(** For every [int] [ind >= 0], in binary64: the degree that
    [ssht_sampling_ind2elm] returns is the integer square root of [ind], the
    order lies between [-el] and [el], and the two satisfy
    [ind = el*el + el + m]. *)
Theorem ind2elm_degree_order (ind : Z) :
  0 <= ind <= CInt.INT_MAX ->
  fst (ssht_sampling_ind2elm (D := B64.double) ind) = Z.sqrt ind
  /\ - fst (ssht_sampling_ind2elm (D := B64.double) ind)
     <= snd (ssht_sampling_ind2elm (D := B64.double) ind)
     <= fst (ssht_sampling_ind2elm (D := B64.double) ind)
  /\ fst (ssht_sampling_ind2elm (D := B64.double) ind)
     * fst (ssht_sampling_ind2elm (D := B64.double) ind)
     + fst (ssht_sampling_ind2elm (D := B64.double) ind)
     + snd (ssht_sampling_ind2elm (D := B64.double) ind) = ind.
Proof.
  intros Hind. rewrite ind2elm_b64 by exact Hind. cbn [fst snd].
  pose proof (Z.sqrt_spec ind ltac:(lia)) as Hs. cbv zeta in Hs.
  split; [reflexivity|]. split; [lia|ring].
Qed.

Lemma ind2elm_degree_order_witness :
  fst (ssht_sampling_ind2elm (D := B64.double) 7) = Z.sqrt 7
  /\ - fst (ssht_sampling_ind2elm (D := B64.double) 7)
     <= snd (ssht_sampling_ind2elm (D := B64.double) 7)
     <= fst (ssht_sampling_ind2elm (D := B64.double) 7)
  /\ fst (ssht_sampling_ind2elm (D := B64.double) 7)
     * fst (ssht_sampling_ind2elm (D := B64.double) 7)
     + fst (ssht_sampling_ind2elm (D := B64.double) 7)
     + snd (ssht_sampling_ind2elm (D := B64.double) 7) = 7.
Proof. apply (ind2elm_degree_order 7). unfold CInt.INT_MAX. lia. Defined.

(** * Further properties of the code *)

(** ** When [gauleg] returns *)

Section Returns.

Context {D : Type} `{DoubleOps D} `{Libm D}.

Lemma gauleg_prefix_returns (fuel : nat) (xm xl : D) (n : Z)
    (x w : buffer D) (k : nat) :
  (forall i : Z, 1 <= i <= Z.of_nat k ->
     newton fuel n (guess n i) <> None) ->
  exists x' w' : buffer D,
    fold_left (gauleg_body fuel xm xl n) (for_le 1 (Z.of_nat k)) (Some (x, w))
    = Some (x', w').
Proof.
  induction k as [|k IH]; intros Hloops.
  - rewrite for_le_empty by lia. exists x, w. reflexivity.
  - rewrite for_le_snoc by lia.
    replace (Z.of_nat (S k) - 1) with (Z.of_nat k) by lia.
    rewrite fold_left_app. cbn [fold_left].
    destruct IH as (xk & wk & ->); [intros i Hi; apply Hloops; lia|].
    unfold gauleg_body.
    destruct (newton fuel n (guess n (Z.of_nat (S k)))) as [[z pp]|] eqn:Hl.
    + eexists. eexists. reflexivity.
    + exfalso. apply (Hloops (Z.of_nat (S k))); [lia|exact Hl].
Qed.

(** [gauleg] returns once each of its loops is left. *)
Lemma gauleg_returns (fuel : nat) (x1 x2 : D) (n : Z) (x w : buffer D) :
  1 <= n < CInt.INT_MAX -> loops_left fuel n ->
  exists x' w' : buffer D, gauleg fuel x1 x2 x w n = Some (x', w').
Proof.
  intros Hn Hloops. unfold gauleg. rewrite gauleg_half by lia.
  assert (Hm : 0 <= (n + 1) / 2) by (apply Z.div_pos; lia).
  replace ((n + 1) / 2) with (Z.of_nat (Z.to_nat ((n + 1) / 2))) by lia.
  apply gauleg_prefix_returns. intros i Hi. apply Hloops. lia.
Qed.

End Returns.

Section SmallRules.

Import Exact.
Local Open Scope R_scope.

(** In the exact reading the loops of the rules with up to four points are
    left within five passes. *)
Lemma loops_left_small (fuel : nat) (n : Z) :
  (1 <= n <= 4)%Z -> (5 <= fuel)%nat -> loops_left (D := R) fuel n.
Proof.
  intros Hn Hfuel. destruct fuel as [|[|[|[|[|fuel]]]]]; try lia.
  assert (Hcases : n = 1%Z \/ n = 2%Z \/ n = 3%Z \/ n = 4%Z) by lia.
  intros i Hi.
  destruct Hcases as [ -> | [ -> | [ -> | -> ] ] ].
  - change ((1 + 1) / 2)%Z with 1%Z in Hi.
    replace i with 1%Z by lia.
    rewrite newton_one by apply guess_one_not_unit. discriminate.
  - change ((2 + 1) / 2)%Z with 1%Z in Hi.
    replace i with 1%Z by lia.
    pose proof guess_two_bounds as Hg.
    destruct (newton_two_stops (S fuel) (guess 2 1)) as (r & -> & _);
      try nra.
    discriminate.
  - change ((3 + 1) / 2)%Z with 2%Z in Hi.
    assert (Hi' : i = 1%Z \/ i = 2%Z) by lia.
    destruct Hi' as [ -> | -> ].
    + pose proof guess_three_outer as Hg.
      destruct (newton_three_stops fuel (guess 3 1)) as (r & -> & _);
        try nra.
      discriminate.
    + destruct guess_three_middle as [Hnz Hsmall].
      destruct (newton_three_middle_stops (S (S (S fuel))) (guess 3 2)
                  Hnz Hsmall) as (r & -> & _).
      discriminate.
  - change ((4 + 1) / 2)%Z with 2%Z in Hi.
    assert (Hi' : i = 1%Z \/ i = 2%Z) by lia.
    destruct Hi' as [ -> | -> ].
    + pose proof guess_four_outer as Hg.
      assert (Hr : 861 / 1000 <= guess 4 1 <= 87 / 100) by lra.
      destruct (newton_four_outer_stops (S fuel) (guess 4 1) Hr
                  (quartic_guess_outer _ Hg)) as (r & -> & _).
      discriminate.
    + pose proof guess_four_inner as Hg.
      assert (Hr : 3399 / 10000 <= guess 4 2 <= 35 / 100) by lra.
      destruct (newton_four_inner_stops (S fuel) (guess 4 2) Hr
                  (quartic_guess_inner _ Hg)) as (r & -> & _).
      discriminate.
Qed.

End SmallRules.

(** ** What [gauleg] writes *)

Section Output.

Context {D : Type} `{DoubleOps D} `{Libm D}.

Lemma gauleg_prefix_output (fuel : nat) (xm xl : D) (n : Z)
    (x w : buffer D) (k : nat) :
  1 <= n < CInt.INT_MAX -> Z.of_nat k <= (n + 1) / 2 ->
  forall x' w' : buffer D,
    fold_left (gauleg_body fuel xm xl n) (for_le 1 (Z.of_nat k)) (Some (x, w))
    = Some (x', w') ->
    forall i : Z, 1 <= i <= Z.of_nat k ->
      exists z pp : D,
        newton fuel n (guess n i) = Some (z, pp)
        /\ x' (n - i) = (xm + xl * z)%D
        /\ (i - 1 <> n - i -> x' (i - 1) = (xm - xl * z)%D)
        /\ w' (i - 1) = (lit 2 0 * xl / ((lit 1 0 - z * z) * pp * pp))%D
        /\ w' (n - i) = (lit 2 0 * xl / ((lit 1 0 - z * z) * pp * pp))%D.
Proof.
  intros Hn. induction k as [|k IH]; intros Hk x' w' Hrun i Hi; [lia|].
  assert (Hhalf : 2 * ((n + 1) / 2) <= n + 1)
    by (apply Z.mul_div_le; lia).
  assert (HSk : Z.of_nat (S k) = Z.of_nat k + 1) by lia.
  rewrite HSk in *. clear HSk.
  rewrite for_le_snoc in Hrun by lia.
  replace (Z.of_nat k + 1 - 1) with (Z.of_nat k) in Hrun by lia.
  rewrite fold_left_app in Hrun. cbn [fold_left] in Hrun.
  destruct (fold_left (gauleg_body fuel xm xl n) (for_le 1 (Z.of_nat k))
              (Some (x, w))) as [[xk wk]|] eqn:Hprev; [|discriminate].
  specialize (IH ltac:(lia) xk wk eq_refl).
  unfold gauleg_body in Hrun.
  destruct (newton fuel n (guess n (Z.of_nat k + 1))) as [[z pp]|] eqn:Hloop;
    [|discriminate].
  destruct (gauleg_indices n (Z.of_nat k + 1) Hn ltac:(lia)) as [Hi1 Hi2].
  rewrite Hi1, Hi2 in Hrun. injection Hrun as <- <-.
  unfold store. rewrite !Z.eqb_refl.
  destruct (Z.eq_dec i (Z.of_nat k + 1)) as [->|Hne].
  - exists z, pp. split; [exact Hloop|].
    rewrite !Z.eqb_refl.
    destruct (Z.eqb_spec (Z.of_nat k + 1 - 1) (n - (Z.of_nat k + 1)))
      as [E|E].
    + split; [reflexivity|]. split; [intros Hc; lia|].
      split; reflexivity.
    + split; [reflexivity|]. split; [intros _; reflexivity|].
      split; reflexivity.
  - destruct (IH i ltac:(lia)) as (zi & ppi & Hli & Hx2 & Hx1 & Hw1 & Hw2).
    exists zi, ppi. split; [exact Hli|].
    destruct (Z.eqb_spec (n - i) (n - (Z.of_nat k + 1))) as [E|_]; [lia|].
    destruct (Z.eqb_spec (n - i) (Z.of_nat k + 1 - 1)) as [E|_]; [lia|].
    destruct (Z.eqb_spec (i - 1) (n - (Z.of_nat k + 1))) as [E|_]; [lia|].
    destruct (Z.eqb_spec (i - 1) (Z.of_nat k + 1 - 1)) as [E|_]; [lia|].
    split; [exact Hx2|]. split; [exact Hx1|]. split; assumption.
Qed.

(** What a run of [gauleg] that returned has written. *)
Lemma gauleg_run_output (fuel : nat) (x1 x2 : D) (n : Z)
    (x w x' w' : buffer D) :
  1 <= n < CInt.INT_MAX ->
  gauleg fuel x1 x2 x w n = Some (x', w') ->
  forall i : Z, 1 <= i <= (n + 1) / 2 ->
    exists z pp : D,
      newton fuel n (guess n i) = Some (z, pp)
      /\ x' (n - i) = (lit 5 (-1) * (x2 + x1) + lit 5 (-1) * (x2 - x1) * z)%D
      /\ (i - 1 <> n - i ->
          x' (i - 1)
          = (lit 5 (-1) * (x2 + x1) - lit 5 (-1) * (x2 - x1) * z)%D)
      /\ w' (i - 1)
         = (lit 2 0 * (lit 5 (-1) * (x2 - x1))
            / ((lit 1 0 - z * z) * pp * pp))%D
      /\ w' (n - i) = w' (i - 1).
Proof.
  intros Hn Hrun i Hi. unfold gauleg in Hrun.
  rewrite gauleg_half in Hrun by lia.
  assert (Hm : 0 <= (n + 1) / 2) by (apply Z.div_pos; lia).
  replace ((n + 1) / 2) with (Z.of_nat (Z.to_nat ((n + 1) / 2))) in Hrun
    by lia.
  destruct (gauleg_prefix_output fuel _ _ n x w (Z.to_nat ((n + 1) / 2)) Hn
              ltac:(lia) x' w' Hrun i ltac:(lia))
    as (z & pp & Hl & Hx2 & Hx1 & Hw1 & Hw2).
  exists z, pp. split; [exact Hl|]. split; [exact Hx2|].
  split; [exact Hx1|]. split; [exact Hw1|]. rewrite Hw1. exact Hw2.
Qed.

(** When each of its loops is left, [gauleg] returns, and this is what it
    has written, in whatever arithmetic the doubles are read: for each [i]
    from 1 to [(n+1)/2], with [z] and [pp] the root and the derivative the
    loop started from the [i]-th guess was left with, [x[n-i]] is
    [xm + xl*z] and [x[i-1]], where it is another entry, [xm - xl*z]; and
    [w[i-1]] and [w[n-i]] are both [2 xl / ((1 - z*z) pp pp)]. *)
Theorem gauleg_output (fuel : nat) (x1 x2 : D) (n : Z) (x w : buffer D) :
  1 <= n < CInt.INT_MAX ->
  loops_left fuel n ->
  exists x' w' : buffer D,
    gauleg fuel x1 x2 x w n = Some (x', w')
    /\ forall i : Z, 1 <= i <= (n + 1) / 2 ->
         exists z pp : D,
           newton fuel n (guess n i) = Some (z, pp)
           /\ x' (n - i)
              = (lit 5 (-1) * (x2 + x1) + lit 5 (-1) * (x2 - x1) * z)%D
           /\ (i - 1 <> n - i ->
               x' (i - 1)
               = (lit 5 (-1) * (x2 + x1) - lit 5 (-1) * (x2 - x1) * z)%D)
           /\ w' (i - 1)
              = (lit 2 0 * (lit 5 (-1) * (x2 - x1))
                 / ((lit 1 0 - z * z) * pp * pp))%D
           /\ w' (n - i) = w' (i - 1).
Proof.
  intros Hn Hloops.
  destruct (gauleg_returns fuel x1 x2 n x w Hn Hloops) as (x' & w' & Hrun).
  exists x', w'. split; [exact Hrun|].
  exact (gauleg_run_output fuel x1 x2 n x w x' w' Hn Hrun).
Qed.

End Output.

Section OutputWitness.

Import Exact.

Lemma gauleg_output_witness :
  exists x' w' : buffer R,
    gauleg 5 (- lit 1 0)%D (lit 1 0) (fun _ => 0%R) (fun _ => 0%R) 4
    = Some (x', w')
    /\ forall i : Z, 1 <= i <= (4 + 1) / 2 ->
         exists z pp : R,
           newton 5 4 (guess 4 i) = Some (z, pp)
           /\ x' (4 - i)
              = (lit 5 (-1) * (lit 1 0 + - lit 1 0)
                 + lit 5 (-1) * (lit 1 0 - - lit 1 0) * z)%D
           /\ (i - 1 <> 4 - i ->
               x' (i - 1)
               = (lit 5 (-1) * (lit 1 0 + - lit 1 0)
                  - lit 5 (-1) * (lit 1 0 - - lit 1 0) * z)%D)
           /\ w' (i - 1)
              = (lit 2 0 * (lit 5 (-1) * (lit 1 0 - - lit 1 0))
                 / ((lit 1 0 - z * z) * pp * pp))%D
           /\ w' (4 - i) = w' (i - 1).
Proof.
  apply (gauleg_output 5 (- lit 1 0)%D (lit 1 0) 4
           (fun _ => 0%R) (fun _ => 0%R));
    [unfold CInt.INT_MAX; lia|apply loops_left_small; lia].
Defined.

End OutputWitness.

Section Frames.

Context {D : Type} `{DoubleOps D} `{Libm D}.

Lemma gauleg_frame (fuel : nat) (x1 x2 : D) (n : Z)
    (x w x' w' : buffer D) :
  1 <= n < CInt.INT_MAX ->
  gauleg fuel x1 x2 x w n = Some (x', w') ->
  forall j : Z, j < 0 \/ n <= j -> x' j = x j /\ w' j = w j.
Proof.
  intros Hn Hrun. unfold gauleg in Hrun.
  rewrite gauleg_half in Hrun by lia.
  assert (Hm : 0 <= (n + 1) / 2) by (apply Z.div_pos; lia).
  replace ((n + 1) / 2) with (Z.of_nat (Z.to_nat ((n + 1) / 2))) in Hrun
    by lia.
  exact (gauleg_prefix_frame fuel _ _ n x w (Z.to_nat ((n + 1) / 2)) Hn
           ltac:(lia) x' w' Hrun).
Qed.

(** [ssht_sampling_gl_thetas_weights] writes [thetas[0 .. L-1]] and
    [weights[0 .. L-1]] and nothing else. *)
Theorem gl_thetas_weights_in_bounds (fuel : nat) (L : Z)
    (thetas weights th' w' : buffer D) :
  1 <= L < CInt.INT_MAX ->
  ssht_sampling_gl_thetas_weights fuel thetas weights L = Some (th', w') ->
  forall j : Z, j < 0 \/ L <= j -> th' j = thetas j /\ w' j = weights j.
Proof.
  intros HL Hrun j Hj. unfold ssht_sampling_gl_thetas_weights in Hrun.
  destruct (gauleg fuel (- lit 1 0)%D (lit 1 0) thetas weights L)
    as [[x v]|] eqn:Hg; [|discriminate].
  destruct (gauleg_frame fuel _ _ L thetas weights x v HL Hg j Hj)
    as [Hx Hv].
  injection Hrun as <- <-. split; [|exact Hv].
  unfold CInt.sub. rewrite wrap_in_range
    by (unfold CInt.in_range, CInt.INT_MIN, CInt.INT_MAX in *; lia).
  replace (L - 1) with (Z.of_nat (Z.to_nat L) - 1) by lia.
  rewrite (acos_loop x (Z.to_nat L) j).
  destruct (Z.leb_spec 0 j); destruct (Z.leb_spec j (Z.of_nat (Z.to_nat L) - 1));
    cbn [andb]; try exact Hx; lia.
Qed.

(** With [n <= 0] points nothing is computed: [gauleg] returns at once,
    whatever the bounds and however few passes the loop is allowed, and
    leaves both buffers as they were; so does
    [ssht_sampling_gl_thetas_weights] with a band-limit [L <= 0]. *)
Theorem gauleg_no_points (fuel : nat) (x1 x2 : D) (n : Z) (x w : buffer D) :
  CInt.INT_MIN <= n <= 0 ->
  gauleg fuel x1 x2 x w n = Some (x, w)
  /\ (CInt.INT_MIN < n ->
      ssht_sampling_gl_thetas_weights fuel x w n = Some (x, w)).
Proof.
  intros Hn.
  assert (Hg : forall a b : D, gauleg fuel a b x w n = Some (x, w)).
  { intros a b. unfold gauleg, CInt.div, CInt.add.
    unfold CInt.INT_MIN in Hn.
    rewrite (wrap_in_range (n + 1))
      by (unfold CInt.in_range, CInt.INT_MIN, CInt.INT_MAX; lia).
    pose proof (quot2_nonpositive (n + 1) ltac:(lia) ltac:(lia)) as Hq.
    rewrite (wrap_in_range ((n + 1) ÷ 2))
      by (unfold CInt.in_range, CInt.INT_MIN, CInt.INT_MAX; lia).
    rewrite (for_le_empty 1) by lia. reflexivity. }
  split; [apply Hg|]. intros Hmin.
  unfold ssht_sampling_gl_thetas_weights. rewrite Hg.
  unfold CInt.sub, CInt.INT_MIN in *. rewrite wrap_in_range
    by (unfold CInt.in_range, CInt.INT_MIN, CInt.INT_MAX; lia).
  rewrite for_le_empty by lia. reflexivity.
Qed.

End Frames.

Section FramesWitness.

Import Exact.

Lemma gl_two_returns :
  exists th' w' : buffer R,
    ssht_sampling_gl_thetas_weights 4 (fun _ => 0%R) (fun _ => 0%R) 2
    = Some (th', w').
Proof.
  destruct (gauleg_two_returns 0 (- lit 1 0)%D (lit 1 0)
              (fun _ => 0%R) (fun _ => 0%R)) as (x' & w' & Hrun).
  unfold ssht_sampling_gl_thetas_weights. rewrite Hrun.
  eexists. eexists. reflexivity.
Qed.

Lemma gl_thetas_weights_in_bounds_witness :
  exists th' w' : buffer R,
    ssht_sampling_gl_thetas_weights 4 (fun _ => 0%R) (fun _ => 0%R) 2
    = Some (th', w')
    /\ forall j : Z, j < 0 \/ 2 <= j -> th' j = 0%R /\ w' j = 0%R.
Proof.
  destruct gl_two_returns as (th' & w' & Hrun).
  exists th', w'. split; [exact Hrun|].
  apply (gl_thetas_weights_in_bounds 4 2 (fun _ => 0%R) (fun _ => 0%R)
           th' w'); [unfold CInt.INT_MAX; lia|exact Hrun].
Defined.

Lemma gauleg_no_points_witness :
  gauleg 0 (- lit 1 0)%D (lit 1 0) (fun _ => 0%R) (fun _ => 0%R) 0
  = Some (fun _ => 0%R, fun _ => 0%R)
  /\ (CInt.INT_MIN < 0 ->
      ssht_sampling_gl_thetas_weights 0 (fun _ => 0%R) (fun _ => 0%R) 0
      = Some (fun _ => 0%R, fun _ => 0%R)).
Proof.
  apply (gauleg_no_points 0 (- lit 1 0)%D (lit 1 0) 0
           (fun _ => 0%R) (fun _ => 0%R)).
  unfold CInt.INT_MIN. lia.
Defined.

End FramesWitness.

(** ** The rule on an interval *)

Section Interval.

Import Exact.
Local Open Scope R_scope.

(** Mirrored entries after a whole run, on any interval. *)
Lemma gauleg_mirror (fuel : nat) (x1 x2 : R) (n : Z) (x w x' w' : buffer R) :
  (1 <= n < CInt.INT_MAX)%Z ->
  gauleg fuel x1 x2 x w n = Some (x', w') ->
  forall i : Z, (0 <= i <= n - 1)%Z ->
    (i <> (n - 1 - i)%Z -> x' i + x' (n - 1 - i)%Z = x1 + x2)
    /\ w' i = w' (n - 1 - i)%Z.
Proof.
  intros Hn Hrun i Hi. unfold gauleg in Hrun.
  rewrite gauleg_half in Hrun by lia.
  assert (Hm : (0 <= (n + 1) / 2)%Z) by (apply Z.div_pos; lia).
  assert (Hlow : (n + 1 < 2 * ((n + 1) / 2) + 2)%Z).
  { pose proof (Z.mul_succ_div_gt (n + 1) 2 ltac:(lia)). lia. }
  replace ((n + 1) / 2)%Z with (Z.of_nat (Z.to_nat ((n + 1) / 2))) in Hrun
    by lia.
  pose proof (gauleg_prefix_symmetric fuel _ _ n x w
                (Z.to_nat ((n + 1) / 2)) Hn ltac:(lia) x' w' Hrun) as Hsym.
  assert (Hmid : forall a b : R,
             a - (lit 5 (-1) * (x2 + x1))%D
             = - (b - (lit 5 (-1) * (x2 + x1))%D) -> a + b = x1 + x2).
  { intros a b. exact_ops. lra. }
  destruct (Z_lt_le_dec i ((n + 1) / 2)) as [Hlo|Hhi].
  - destruct (Hsym i ltac:(lia)) as [Hx Hw]. split; [|exact Hw].
    intros Hne. apply Hmid, Hx, Hne.
  - destruct (Hsym (n - 1 - i)%Z ltac:(lia)) as [Hx Hw].
    replace (n - 1 - (n - 1 - i))%Z with i in * by lia.
    split; [|symmetry; exact Hw].
    intros Hne. specialize (Hx ltac:(lia)). apply Hmid in Hx. lra.
Qed.

Lemma gl_thetas_mirror (fuel : nat) (L : Z)
    (thetas weights th' w' : buffer R) :
  (1 <= L < CInt.INT_MAX)%Z ->
  ssht_sampling_gl_thetas_weights fuel thetas weights L = Some (th', w') ->
  forall t : Z, (0 <= t <= L - 1)%Z ->
    (t <> (L - 1 - t)%Z -> th' t + th' (L - 1 - t)%Z = PI)
    /\ w' t = w' (L - 1 - t)%Z.
Proof.
  intros HL Hrun t Ht. unfold ssht_sampling_gl_thetas_weights in Hrun.
  destruct (gauleg fuel (- lit 1 0)%D (lit 1 0) thetas weights L)
    as [[x v]|] eqn:Hg; [|discriminate].
  destruct (gauleg_mirror fuel _ _ L thetas weights x v HL Hg t Ht)
    as [Hx Hv].
  injection Hrun as <- <-. split; [|exact Hv]. intros Hne.
  unfold CInt.sub. rewrite wrap_in_range
    by (unfold CInt.in_range, CInt.INT_MIN, CInt.INT_MAX in *; lia).
  replace (L - 1)%Z with (Z.of_nat (Z.to_nat L) - 1)%Z by lia.
  pose proof (acos_loop (D := R) x (Z.to_nat L) t) as Ha.
  pose proof (acos_loop (D := R) x (Z.to_nat L)
                (Z.of_nat (Z.to_nat L) - 1 - t)) as Hb.
  cbn [dacos Exact.libm] in Ha, Hb. rewrite Ha, Hb. clear Ha Hb.
  replace ((0 <=? t) && (t <=? Z.of_nat (Z.to_nat L) - 1))%Z with true
    by (symmetry; apply andb_true_intro; split; apply Z.leb_le; lia).
  replace ((0 <=? Z.of_nat (Z.to_nat L) - 1 - t)
           && (Z.of_nat (Z.to_nat L) - 1 - t <=? Z.of_nat (Z.to_nat L) - 1))%Z
    with true
    by (symmetry; apply andb_true_intro; split; apply Z.leb_le; lia).
  replace (Z.of_nat (Z.to_nat L) - 1 - t)%Z with (L - 1 - t)%Z by lia.
  specialize (Hx Hne). revert Hx. exact_ops. intros Hx.
  replace (x t) with (- x (L - 1 - t)%Z) by lra.
  rewrite acos_opp. ring.
Qed.

(** In the exact reading the loops are left in the same passes on every
    interval; for up to four points they are left within five. *)
Lemma loops_left_cases (fuel : nat) (n : Z) :
  loops_left (D := R) fuel n \/ ((n <= 4)%Z /\ (5 <= fuel)%nat) ->
  (1 <= n)%Z -> loops_left (D := R) fuel n.
Proof.
  intros [Hl|[Hn Hf]] H1; [exact Hl|]. apply loops_left_small; lia.
Qed.

(** When each loop of [gauleg] is left (as it is, within five passes, for
    up to four points), [gauleg] returns on any interval, and its abscissas
    are symmetric about the midpoint: two mirrored abscissas sum to
    [x1 + x2], and their weights are equal. *)
Theorem gauleg_midpoint_symmetric (fuel : nat) (x1 x2 : R) (n : Z)
    (x w : buffer R) :
  (1 <= n < CInt.INT_MAX)%Z ->
  loops_left (D := R) fuel n \/ ((n <= 4)%Z /\ (5 <= fuel)%nat) ->
  exists x' w' : buffer R,
    gauleg fuel x1 x2 x w n = Some (x', w')
    /\ forall i : Z, (0 <= i <= n - 1)%Z ->
         (i <> (n - 1 - i)%Z -> x' i + x' (n - 1 - i)%Z = x1 + x2)
         /\ w' i = w' (n - 1 - i)%Z.
Proof.
  intros Hn Hloops. apply loops_left_cases in Hloops; [|lia].
  destruct (gauleg_returns fuel x1 x2 n x w Hn Hloops) as (x' & w' & Hrun).
  exists x', w'. split; [exact Hrun|].
  exact (gauleg_mirror fuel x1 x2 n x w x' w' Hn Hrun).
Qed.

(** When each loop of [gauleg] is left (as it is, within five passes, for
    a band-limit up to 4), [ssht_sampling_gl_thetas_weights] returns, and
    its colatitudes are symmetric about the equator: two mirrored
    colatitudes sum to pi, and their weights are equal. *)
Theorem gl_thetas_equator_symmetric (fuel : nat) (L : Z)
    (thetas weights : buffer R) :
  (1 <= L < CInt.INT_MAX)%Z ->
  loops_left (D := R) fuel L \/ ((L <= 4)%Z /\ (5 <= fuel)%nat) ->
  exists th' w' : buffer R,
    ssht_sampling_gl_thetas_weights fuel thetas weights L = Some (th', w')
    /\ forall t : Z, (0 <= t <= L - 1)%Z ->
         (t <> (L - 1 - t)%Z -> th' t + th' (L - 1 - t)%Z = PI)
         /\ w' t = w' (L - 1 - t)%Z.
Proof.
  intros HL Hloops. apply loops_left_cases in Hloops; [|lia].
  destruct (gauleg_returns fuel (- lit 1 0)%D (lit 1 0) L thetas weights
              HL Hloops) as (x' & w' & Hrun).
  assert (Hgl : exists th' : buffer R,
             ssht_sampling_gl_thetas_weights fuel thetas weights L
             = Some (th', w')).
  { unfold ssht_sampling_gl_thetas_weights. rewrite Hrun.
    eexists. reflexivity. }
  destruct Hgl as [th' Hgl]. exists th', w'. split; [exact Hgl|].
  exact (gl_thetas_mirror fuel L thetas weights th' w' HL Hgl).
Qed.

Lemma gauleg_midpoint_symmetric_witness :
  exists x' w' : buffer R,
    gauleg 5 0 1 (fun _ => 0) (fun _ => 0) 4 = Some (x', w')
    /\ forall i : Z, (0 <= i <= 4 - 1)%Z ->
         (i <> (4 - 1 - i)%Z -> x' i + x' (4 - 1 - i)%Z = 0 + 1)
         /\ w' i = w' (4 - 1 - i)%Z.
Proof.
  apply (gauleg_midpoint_symmetric 5 0 1 4 (fun _ => 0) (fun _ => 0));
    [unfold CInt.INT_MAX; lia|right; lia].
Defined.

Lemma gl_thetas_equator_symmetric_witness :
  exists th' w' : buffer R,
    ssht_sampling_gl_thetas_weights 5 (fun _ => 0) (fun _ => 0) 4
    = Some (th', w')
    /\ forall t : Z, (0 <= t <= 4 - 1)%Z ->
         (t <> (4 - 1 - t)%Z -> th' t + th' (4 - 1 - t)%Z = PI)
         /\ w' t = w' (4 - 1 - t)%Z.
Proof.
  apply (gl_thetas_equator_symmetric 5 4 (fun _ => 0) (fun _ => 0));
    [unfold CInt.INT_MAX; lia|right; lia].
Defined.

End Interval.

(** ** Symmetry of the rule on [[-1, 1]] *)



Section Affine.

Import Exact.
Local Open Scope R_scope.

Lemma gauleg_prefix_affine (fuel : nat) (xm xl xm0 xl0 : R) (n : Z)
    (x w u0 v0 : buffer R) (k : nat) :
  xm0 = 0 -> xl0 = 1 ->
  (1 <= n < CInt.INT_MAX)%Z -> (Z.of_nat k <= (n + 1) / 2)%Z ->
  forall u v : buffer R,
    fold_left (gauleg_body fuel xm0 xl0 n) (for_le 1 (Z.of_nat k))
      (Some (u0, v0)) = Some (u, v) ->
    exists x' w' : buffer R,
      fold_left (gauleg_body fuel xm xl n) (for_le 1 (Z.of_nat k))
        (Some (x, w)) = Some (x', w')
      /\ forall j : Z,
           (0 <= j < Z.of_nat k \/ n - 1 - Z.of_nat k < j <= n - 1)%Z ->
           x' j = xm + xl * u j /\ w' j = xl * v j.
Proof.
  intros Hxm0 Hxl0 Hn. subst xm0 xl0.
  induction k as [|k IH]; intros Hk u v Hrun.
  - rewrite for_le_empty by lia. cbn [fold_left].
    exists x, w. split; [reflexivity|]. intros j Hj. lia.
  - assert (Hhalf : (2 * ((n + 1) / 2) <= n + 1)%Z)
      by (apply Z.mul_div_le; lia).
    assert (HSk : Z.of_nat (S k) = (Z.of_nat k + 1)%Z) by lia.
    rewrite HSk in *. clear HSk.
    rewrite for_le_snoc in Hrun |- * by lia.
    replace (Z.of_nat k + 1 - 1)%Z with (Z.of_nat k) in Hrun |- * by lia.
    rewrite fold_left_app in Hrun |- *. cbn [fold_left] in Hrun |- *.
    destruct (fold_left (gauleg_body fuel 0 1 n) (for_le 1 (Z.of_nat k))
                (Some (u0, v0))) as [[uk vk]|] eqn:Hprev; [|discriminate].
    destruct (IH ltac:(lia) uk vk eq_refl) as (xk & wk & -> & Hrel).
    unfold gauleg_body in Hrun |- *.
    destruct (newton fuel n (guess n (Z.of_nat k + 1))) as [[z pp]|];
      [|discriminate].
    destruct (gauleg_indices n (Z.of_nat k + 1) Hn ltac:(lia)) as [Hi1 Hi2].
    rewrite Hi1, Hi2 in Hrun |- *. injection Hrun as <- <-.
    eexists. eexists. split; [reflexivity|]. intros j Hj.
    unfold store. rewrite !Z.eqb_refl.
    destruct (Z.eqb_spec j (n - (Z.of_nat k + 1))) as [E1|E1].
    + exact_ops. split; unfold Rdiv; ring.
    + destruct (Z.eqb_spec j (Z.of_nat k + 1 - 1)) as [E2|E2].
      * exact_ops. split; unfold Rdiv; ring.
      * apply Hrel. lia.
Qed.

(** The rule on [[x1, x2]] is the rule on [[-1, 1]] moved to the interval:
    when [gauleg] returns on [[-1, 1]] it returns on [[x1, x2]], each
    abscissa is the midpoint plus the half-length times the abscissa on
    [[-1, 1]], and each weight is the half-length times the weight on
    [[-1, 1]]. *)
Theorem gauleg_affine (fuel : nat) (x1 x2 : R) (n : Z)
    (x w u0 v0 u v : buffer R) :
  (1 <= n < CInt.INT_MAX)%Z ->
  gauleg fuel (- lit 1 0)%D (lit 1 0) u0 v0 n = Some (u, v) ->
  exists x' w' : buffer R,
    gauleg fuel x1 x2 x w n = Some (x', w')
    /\ forall i : Z, (0 <= i <= n - 1)%Z ->
         x' i = (x1 + x2) / 2 + (x2 - x1) / 2 * u i
         /\ w' i = (x2 - x1) / 2 * v i.
Proof.
  intros Hn Hrun. unfold gauleg in Hrun |- *.
  rewrite gauleg_half in Hrun |- * by lia.
  assert (Hm : (0 <= (n + 1) / 2)%Z) by (apply Z.div_pos; lia).
  assert (Hlow : (n + 1 < 2 * ((n + 1) / 2) + 2)%Z).
  { pose proof (Z.mul_succ_div_gt (n + 1) 2 ltac:(lia)). lia. }
  replace ((n + 1) / 2)%Z with (Z.of_nat (Z.to_nat ((n + 1) / 2)))
    in Hrun |- * by lia.
  assert (H0 : (lit 5 (-1) * (lit 1 0 + - lit 1 0))%D = 0)
    by (exact_ops; lra).
  assert (H1 : (lit 5 (-1) * (lit 1 0 - - lit 1 0))%D = 1)
    by (exact_ops; lra).
  assert (Hle : (Z.of_nat (Z.to_nat ((n + 1) / 2)) <= (n + 1) / 2)%Z) by lia.
  destruct (gauleg_prefix_affine fuel
              (lit 5 (-1) * (x2 + x1))%D (lit 5 (-1) * (x2 - x1))%D
              _ _ n x w u0 v0 (Z.to_nat ((n + 1) / 2))
              H0 H1 Hn Hle u v Hrun) as (x' & w' & Hx & Hrel).
  exists x', w'. split; [exact Hx|]. intros i Hi.
  destruct (Hrel i ltac:(lia)) as [Ha Hb]. rewrite Ha, Hb.
  exact_ops. split; lra.
Qed.

Lemma gauleg_affine_witness :
  exists u v : buffer R,
    gauleg 4 (- lit 1 0)%D (lit 1 0) (fun _ => 0) (fun _ => 0) 2
    = Some (u, v)
    /\ exists x' w' : buffer R,
         gauleg 4 0 1 (fun _ => 0) (fun _ => 0) 2 = Some (x', w')
         /\ forall i : Z, (0 <= i <= 2 - 1)%Z ->
              x' i = (0 + 1) / 2 + (1 - 0) / 2 * u i
              /\ w' i = (1 - 0) / 2 * v i.
Proof.
  destruct (gauleg_two_returns 0 (- lit 1 0)%D (lit 1 0)
              (fun _ => 0) (fun _ => 0)) as (u & v & Hrun).
  exists u, v. split; [exact Hrun|].
  apply (gauleg_affine 4 0 1 2 (fun _ => 0) (fun _ => 0)
           (fun _ => 0) (fun _ => 0) u v);
    [unfold CInt.INT_MAX; lia|exact Hrun].
Defined.

End Affine.

(** ** The recurrence and the loop under a change of sign *)

Section Parity.

Import Exact.
Local Open Scope R_scope.

Lemma legendre_snoc (k : nat) (z : R) :
  legendre (Z.of_nat (S k)) z
  = legendre_step z (legendre (Z.of_nat k) z) (Z.of_nat k + 1)%Z.
Proof.
  unfold legendre. rewrite for_le_snoc by lia.
  replace (Z.of_nat (S k) - 1)%Z with (Z.of_nat k) by lia.
  rewrite fold_left_app. cbn [fold_left].
  replace (Z.of_nat (S k)) with (Z.of_nat k + 1)%Z by lia. reflexivity.
Qed.

Lemma legendre_step_exact (z p1 p2 : R) (j : Z) :
  legendre_step z (p1, p2) j
  = (((2 * IZR j - 1) * z * p1 - (IZR j - 1) * p2) / IZR j, p1).
Proof. unfold legendre_step. exact_ops. reflexivity. Qed.

Lemma sign_cases (k : nat) : (-1) ^ k = 1 \/ (-1) ^ k = -1.
Proof.
  induction k as [|k [IH|IH]]; cbn [pow]; rewrite ?IH; [left|right|left]; lra.
Qed.

Lemma legendre_parity (k : nat) (z : R) :
  legendre (Z.of_nat k) (- z)
  = ((-1) ^ k * fst (legendre (Z.of_nat k) z),
     - (-1) ^ k * snd (legendre (Z.of_nat k) z)).
Proof.
  induction k as [|k IH].
  - unfold legendre. cbn [Z.of_nat]. rewrite for_le_empty by lia.
    cbn [fold_left fst snd pow]. exact_ops. f_equal; ring.
  - rewrite !legendre_snoc, IH.
    destruct (legendre (Z.of_nat k) z) as [p1 p2]. cbn [fst snd].
    rewrite !legendre_step_exact. cbn [fst snd pow].
    f_equal; unfold Rdiv; ring.
Qed.

(** In the exact reading the recurrence of [gauleg] gives 1 at [z = 1] for
    every degree, for [p1] and, from degree 1 on, for [p2]; and it gives
    polynomials of the parity of their degree: at [-z] the value [p1] of
    degree [n] is [(-1)^n] times its value at [z], and [p2], of degree
    [n-1], is [-(-1)^n] times its value at [z]. *)
Theorem legendre_normalised_parity (n : Z) (z : R) :
  (1 <= n)%Z ->
  legendre n 1 = (1, 1)
  /\ legendre n (- z)
     = ((-1) ^ Z.to_nat n * fst (legendre n z),
        - (-1) ^ Z.to_nat n * snd (legendre n z)).
Proof.
  intros Hn. replace n with (Z.of_nat (Z.to_nat n)) at 1 2 4 6 by lia.
  split; [|apply legendre_parity].
  assert (Hone : forall k : nat, legendre (Z.of_nat (S k)) 1 = (1, 1)).
  { induction k as [|k IH].
    - change (Z.of_nat 1) with 1%Z. rewrite legendre_one. reflexivity.
    - rewrite legendre_snoc, IH, legendre_step_exact.
      assert (Hj : 1 <= IZR (Z.of_nat (S k) + 1)) by (apply IZR_le; lia).
      f_equal. field. lra. }
  destruct (Z.to_nat n) as [|k] eqn:Hk; [lia|]. apply Hone.
Qed.

Lemma legendre_normalised_parity_witness :
  legendre 2 1 = (1, 1)
  /\ legendre 2 (- (1 / 2))
     = ((-1) ^ Z.to_nat 2 * fst (legendre 2 (1 / 2)),
        - (-1) ^ Z.to_nat 2 * snd (legendre 2 (1 / 2))).
Proof. apply (legendre_normalised_parity 2 (1 / 2)). lia. Defined.

Lemma newton_step_opp (k : nat) (z : R) :
  newton_step (Z.of_nat k) (- z)
  = (- fst (newton_step (Z.of_nat k) z),
     - (-1) ^ k * snd (newton_step (Z.of_nat k) z)).
Proof.
  unfold newton_step. rewrite legendre_parity.
  destruct (legendre (Z.of_nat k) z) as [p1 p2]. cbn [fst snd].
  exact_ops.
  set (s := (-1) ^ k).
  set (d := z * z - 1).
  assert (Hpp : IZR (Z.of_nat k) * (- z * (s * p1) - - s * p2)
                / (- z * - z - 1)
                = - s * (IZR (Z.of_nat k) * (z * p1 - p2) / d))
    by (unfold d, Rdiv; replace (- z * - z - 1) with (z * z - 1) by ring;
        ring).
  rewrite Hpp. set (pp := IZR (Z.of_nat k) * (z * p1 - p2) / d).
  f_equal.
  destruct (sign_cases k) as [E|E]; fold s in E; rewrite E.
  - replace (- (1) * pp) with (- pp) by ring. unfold Rdiv.
    destruct (Req_dec pp 0) as [->|Hpp0].
    + rewrite Ropp_0, Rinv_0. ring.
    + field. exact Hpp0.
  - replace (- -1 * pp) with pp by ring. unfold Rdiv. ring.
Qed.

Lemma again_opp (a b : R) : again (- a) (- b) = again a b.
Proof.
  unfold again. rewrite !ExactFacts.ABS_Rabs. exact_ops.
  replace (- a - - b) with (- (a - b)) by ring. rewrite Rabs_Ropp.
  reflexivity.
Qed.

Lemma newton_opp (fuel k : nat) (z : R) :
  newton fuel (Z.of_nat k) (- z)
  = match newton fuel (Z.of_nat k) z with
    | Some (r, pp) => Some (- r, - (-1) ^ k * pp)
    | None => None
    end.
Proof.
  revert z. induction fuel as [|fuel IH]; intros z; [reflexivity|].
  rewrite !newton_S, newton_step_opp. cbn [fst].
  rewrite again_opp.
  destruct (again (fst (newton_step (Z.of_nat k) z)) z).
  - apply IH.
  - destruct (newton_step (Z.of_nat k) z) as [r pp]. reflexivity.
Qed.

(** In the exact reading the loop of [gauleg] commutes with the change of
    sign: started from [-z] it is left after as many passes as from [z],
    with the opposite root and a [pp] of the same square; so the weight
    [2 xl / ((1 - z*z) pp pp)] of the mirrored root is the same. *)
Theorem newton_mirror (fuel : nat) (n : Z) (z r pp : R) :
  (0 <= n)%Z ->
  newton fuel n z = Some (r, pp) ->
  exists pp' : R,
    newton fuel n (- z) = Some (- r, pp')
    /\ pp' * pp' = pp * pp.
Proof.
  intros Hn Hrun. replace n with (Z.of_nat (Z.to_nat n)) in Hrun |- * by lia.
  rewrite newton_opp, Hrun. eexists. split; [reflexivity|].
  destruct (sign_cases (Z.to_nat n)) as [E|E]; rewrite E; ring.
Qed.

Lemma newton_mirror_witness :
  exists pp' : R,
    newton 2 1 (- (1 / 2)) = Some (- 0, pp')
    /\ pp' * pp' = 1 * 1.
Proof.
  apply (newton_mirror 2 1 (1 / 2) 0 1); [lia|].
  apply (newton_one 0). lra.
Defined.

End Parity.

(** *** Binary64: a NaN iterate *)

Lemma again_nan (z1 : B64.double) : again S754_nan z1 = false.
Proof. destruct z1; reflexivity. Qed.

(** In binary64 the loop does not detect a NaN: when a pass yields a NaN
    for [z], as it does from [z = 1.0] where [pp] is [0.0/0.0], the test
    [ABS(z-z1) > EPS] is false, the loop is left at that pass, and the NaN is
    what [gauleg] stores as abscissas and weights of the pair. *)
Theorem newton_nan_exit (fuel : nat) (n : Z) (z : B64.double) :
  fst (newton_step n z) = S754_nan ->
  newton (S fuel) n z = Some (S754_nan, snd (newton_step n z))
  /\ forall (M : Libm B64.double) (i : Z) (xm xl : B64.double)
       (x w : buffer B64.double),
       guess n i = z ->
       exists x' w' : buffer B64.double,
         gauleg_body (S fuel) xm xl n (Some (x, w)) i = Some (x', w')
         /\ x' (CInt.sub i 1) = S754_nan
         /\ x' (CInt.sub (CInt.sub (CInt.add n 1) i) 1) = S754_nan
         /\ w' (CInt.sub i 1) = S754_nan
         /\ w' (CInt.sub (CInt.sub (CInt.add n 1) i) 1) = S754_nan.
Proof.
  intros Hnan.
  assert (Hloop : newton (S fuel) n z
                  = Some (S754_nan, snd (newton_step n z))).
  { rewrite newton_S, Hnan, again_nan. rewrite <- Hnan at 1.
    destruct (newton_step n z); reflexivity. }
  split; [exact Hloop|]. intros M i xm xl x w Hguess.
  unfold gauleg_body. rewrite Hguess, Hloop.
  set (pp := snd (newton_step n z)).
  assert (Hx1 : (xm - xl * S754_nan)%D = S754_nan)
    by (destruct xm, xl; reflexivity).
  assert (Hx2 : (xm + xl * S754_nan)%D = S754_nan)
    by (destruct xm, xl; reflexivity).
  assert (Hw : (lit 2 0 * xl
                / ((lit 1 0 - S754_nan * S754_nan) * pp * pp))%D
               = S754_nan).
  { destruct (lit 2 0 * xl)%D; reflexivity. }
  rewrite Hx1, Hx2, Hw.
  eexists. eexists. split; [reflexivity|].
  unfold store. rewrite !Z.eqb_refl.
  repeat split;
    destruct (_ =? _); reflexivity.
Qed.

Lemma newton_nan_exit_witness :
  newton 1 1 (lit 1 0) = Some (S754_nan, snd (newton_step 1 (lit 1 0)))
  /\ forall (M : Libm B64.double) (i : Z) (xm xl : B64.double)
       (x w : buffer B64.double),
       guess (D := B64.double) 1 i = lit 1 0 ->
       exists x' w' : buffer B64.double,
         gauleg_body 1 xm xl 1 (Some (x, w)) i = Some (x', w')
         /\ x' (CInt.sub i 1) = S754_nan
         /\ x' (CInt.sub (CInt.sub (CInt.add 1 1) i) 1) = S754_nan
         /\ w' (CInt.sub i 1) = S754_nan
         /\ w' (CInt.sub (CInt.sub (CInt.add 1 1) i) 1) = S754_nan.
Proof.
  apply (newton_nan_exit 0 1 (lit 1 0)). vm_compute. reflexivity.
Defined.

(** ** More on the Driscoll and Healy weight *)

Section WeightDHSymmetry.

Import Exact.
Local Open Scope R_scope.

Lemma weight_dh_sum (theta : R) (L : Z) :
  CInt.in_range L -> (1 <= L)%Z ->
  ssht_sampling_weight_dh theta L
  = 2 / IZR L * sin theta * sum_f_R0 (dh_term theta) (Z.to_nat (L - 1)).
Proof.
  intros Hr HL. unfold ssht_sampling_weight_dh, CInt.sub.
  rewrite wrap_in_range
    by (unfold CInt.in_range, CInt.INT_MIN, CInt.INT_MAX in *; lia).
  replace (L - 1)%Z with (Z.of_nat (Z.to_nat (L - 1))) at 1 by lia.
  rewrite dh_loop_sum. exact_ops. ring.
Qed.

Lemma dh_term_reflect (theta : R) (k : nat) :
  dh_term (PI - theta) k = dh_term theta k.
Proof.
  unfold dh_term. f_equal.
  replace ((2 * INR k + 1) * (PI - theta))
    with (PI - (2 * INR k + 1) * theta + 2 * INR k * PI) by ring.
  rewrite sin_period. apply sin_PI_x.
Qed.

Lemma dh_term_opp (theta : R) (k : nat) :
  dh_term (- theta) k = - dh_term theta k.
Proof.
  unfold dh_term.
  replace ((2 * INR k + 1) * - theta) with (- ((2 * INR k + 1) * theta))
    by ring.
  rewrite sin_neg. unfold Rdiv. ring.
Qed.

Lemma dh_sum_opp (theta : R) (n : nat) :
  sum_f_R0 (dh_term (- theta)) n = - sum_f_R0 (dh_term theta) n.
Proof.
  induction n as [|n IH]; cbn [sum_f_R0].
  - apply dh_term_opp.
  - rewrite IH, dh_term_opp. ring.
Qed.

(** In the exact reading the Driscoll and Healy weight is the same at
    [theta] and at [pi - theta], the same at [theta] and at [-theta], and 0
    at the two poles [theta = 0] and [theta = pi]. *)
Theorem weight_dh_symmetric (theta : R) (L : Z) :
  CInt.in_range L -> (1 <= L)%Z ->
  ssht_sampling_weight_dh (PI - theta) L = ssht_sampling_weight_dh theta L
  /\ ssht_sampling_weight_dh (- theta) L = ssht_sampling_weight_dh theta L
  /\ ssht_sampling_weight_dh 0 L = 0
  /\ ssht_sampling_weight_dh PI L = 0.
Proof.
  intros Hr HL. rewrite !weight_dh_sum by assumption.
  split; [|split; [|split]].
  - rewrite sin_PI_x. f_equal. apply sum_eq. intros i _.
    apply dh_term_reflect.
  - rewrite sin_neg, dh_sum_opp. ring.
  - rewrite sin_0. ring.
  - rewrite sin_PI. ring.
Qed.

Lemma weight_dh_symmetric_witness :
  ssht_sampling_weight_dh (PI - 1) 2 = ssht_sampling_weight_dh 1 2
  /\ ssht_sampling_weight_dh (- 1) 2 = ssht_sampling_weight_dh 1 2
  /\ ssht_sampling_weight_dh 0 2 = 0
  /\ ssht_sampling_weight_dh PI 2 = 0.
Proof.
  apply (weight_dh_symmetric 1 2);
    unfold CInt.in_range, CInt.INT_MIN, CInt.INT_MAX; lia.
Defined.

End WeightDHSymmetry.

(** In binary64, with the band-limit 0 the Driscoll and Healy weight is a
    NaN at every colatitude, whatever libm's sine returns there: the empty
    sum [0.0] is multiplied by [2.0/0.0] times the sine. *)
Theorem weight_dh_zero_band_limit (M : Libm B64.double)
    (theta : B64.double) :
  ssht_sampling_weight_dh theta 0 = S754_nan.
Proof.
  unfold ssht_sampling_weight_dh.
  change (for_le 0 (CInt.sub 0 1)) with (@nil Z). cbn [fold_left].
  destruct (dsin theta) as [s|s| |s m e]; vm_compute; reflexivity.
Qed.

(** ** More on the weights of the toroidal extension *)

(** The square of an even [int], as the code computes it, is a multiple
    of 4 also where it wraps. *)
Lemma mul_even_multiple_of_4 (p : Z) :
  Z.even p = true -> exists r : Z, CInt.mul p p = 4 * r.
Proof.
  intros Hev. apply Z.even_spec in Hev. destruct Hev as [k ->].
  unfold CInt.mul, CInt.wrap.
  pose proof (Z.div_mod (2 * k * (2 * k) + 2147483648) 4294967296
                ltac:(lia)) as Hdm.
  exists (k * k - 1073741824
                  * ((2 * k * (2 * k) + 2147483648) / 4294967296)).
  lia.
Qed.

Section WeightMWBounds.

Import Exact.
Local Open Scope R_scope.

(** In the exact reading, for every [int] [p], also where [p*p] wraps: the
    divisor [1.0 - p*p] of the even branch is not 0, the real part of the
    weight is at most 2 in absolute value and its imaginary part at most
    [pi/2]. *)
Theorem weight_mw_bounded (p : Z) :
  CInt.in_range p ->
  (Z.even p = true -> 1 - IZR (CInt.mul p p) <> 0)
  /\ Rabs (re (ssht_sampling_weight_mw p)) <= 2
  /\ Rabs (im (ssht_sampling_weight_mw p)) <= PI / 2.
Proof.
  intros _. pose proof PI_RGT_0 as Hpi.
  assert (Hden : Z.even p = true ->
                 1 - IZR (CInt.mul p p) = 1
                 \/ 1 - IZR (CInt.mul p p) <= -3
                 \/ 5 <= 1 - IZR (CInt.mul p p)).
  { intros Hev. destruct (mul_even_multiple_of_4 p Hev) as [r ->].
    rewrite mult_IZR.
    destruct (Z.eq_dec r 0) as [->|Hr0]; [left; lra|].
    destruct (Z_lt_le_dec r 0) as [Hneg|Hpos].
    - right. right. assert (Hr : IZR r <= -1) by (apply IZR_le; lia). lra.
    - right. left. assert (Hr : 1 <= IZR r) by (apply IZR_le; lia). lra. }
  split; [intros Hev; destruct (Hden Hev) as [E|[E|E]]; lra|].
  destruct (Z.eq_dec p 1) as [->|H1].
  { rewrite weight_mw_1. cbn [re im]. rewrite Rabs_R0, Rabs_pos_eq by lra.
    lra. }
  destruct (Z.eq_dec p (-1)) as [->|Hm1].
  { rewrite weight_mw_m1. cbn [re im]. rewrite Rabs_R0, Rabs_Ropp,
      Rabs_pos_eq by lra. lra. }
  destruct (Z.even p) eqn:Hev.
  - rewrite weight_mw_even by exact Hev. cbn [re im]. rewrite Rabs_R0.
    split; [|lra]. apply Rabs_le.
    destruct (Hden eq_refl) as [E|[E|E]].
    + rewrite E. lra.
    + set (d := 1 - IZR (CInt.mul p p)) in *.
      assert (Hi : -1 / 3 <= / d < 0).
      { split.
        - replace (-1 / 3) with (- / 3) by lra.
          replace (/ d) with (- / (- d)) by (field; lra).
          apply Ropp_le_contravar. apply Rinv_le_contravar; lra.
        - apply Rinv_lt_0_compat. lra. }
      unfold Rdiv. lra.
    + set (d := 1 - IZR (CInt.mul p p)) in *.
      assert (Hi : 0 < / d <= / 5).
      { split; [apply Rinv_0_lt_compat; lra|].
        apply Rinv_le_contravar; lra. }
      unfold Rdiv. lra.
  - rewrite weight_mw_odd by assumption. cbn [re im]. rewrite Rabs_R0. lra.
Qed.

Lemma weight_mw_bounded_witness :
  (Z.even 65536 = true -> 1 - IZR (CInt.mul 65536 65536) <> 0)
  /\ Rabs (re (ssht_sampling_weight_mw 65536)) <= 2
  /\ Rabs (im (ssht_sampling_weight_mw 65536)) <= PI / 2.
Proof.
  apply (weight_mw_bounded 65536).
  unfold CInt.in_range, CInt.INT_MIN, CInt.INT_MAX. lia.
Defined.

End WeightMWBounds.

(** ** More on the angles of the MW sampling *)

Section Angles.

Import Exact.
Local Open Scope R_scope.

(** The source notes at [ssht_sampling_mw_t2theta]: [t] in [[0, 2L-2]]
    gives [2L-1] points in [(0, 2 pi)].  In the exact reading every one of
    these angles lies strictly between 0 and [2 pi]; the angle of
    [t = L-1] is pi, those before it are below pi and those after it above;
    and the angles of [t] and [2L-2-t] sum to [2 pi]. *)
Theorem mw_t2theta_range (t L : Z) :
  (1 <= L)%Z -> (0 <= t <= 2 * L - 2)%Z ->
  0 < ssht_sampling_mw_t2theta t L < 2 * PI
  /\ ssht_sampling_mw_t2theta (L - 1) L = PI
  /\ ((t < L - 1)%Z -> ssht_sampling_mw_t2theta t L < PI)
  /\ ((L - 1 < t)%Z -> PI < ssht_sampling_mw_t2theta t L)
  /\ ssht_sampling_mw_t2theta (2 * L - 2 - t) L
     = 2 * PI - ssht_sampling_mw_t2theta t L.
Proof.
  intros HL Ht. rewrite !t2theta_exact.
  assert (HLr : 1 <= IZR L) by (apply IZR_le; exact HL).
  assert (Ht0 : 0 <= IZR t) by (apply IZR_le; lia).
  assert (Ht1 : IZR t <= 2 * IZR L - 2).
  { replace (2 * IZR L - 2) with (IZR (2 * L - 2))
      by (rewrite minus_IZR, mult_IZR; reflexivity).
    apply IZR_le. lia. }
  pose proof PI_RGT_0 as Hpi.
  assert (Hd : 0 < 2 * IZR L - 1) by lra.
  assert (Hdiv : forall a : R,
             a * PI / (2 * IZR L - 1) * (2 * IZR L - 1) = a * PI)
    by (intros a; field; lra).
  assert (Hcmp : forall a b : R,
             a < b * (2 * IZR L - 1) -> a * PI / (2 * IZR L - 1) < b * PI).
  { intros a b Hab. apply (Rmult_lt_reg_r (2 * IZR L - 1)); [exact Hd|].
    rewrite Hdiv. nra. }
  assert (Hcmp' : forall a b : R,
             b * (2 * IZR L - 1) < a -> b * PI < a * PI / (2 * IZR L - 1)).
  { intros a b Hab. apply (Rmult_lt_reg_r (2 * IZR L - 1)); [exact Hd|].
    rewrite Hdiv. nra. }
  split; [split|split; [|split; [|split]]].
  - replace 0 with (0 * PI) by ring. apply Hcmp'. lra.
  - apply Hcmp. lra.
  - rewrite minus_IZR. field. lra.
  - intros Hlt. apply IZR_lt in Hlt. rewrite minus_IZR in Hlt.
    replace PI with (1 * PI) at 2 by ring. apply Hcmp. lra.
  - intros Hlt. apply IZR_lt in Hlt. rewrite minus_IZR in Hlt.
    replace PI with (1 * PI) at 1 by ring. apply Hcmp'. lra.
  - rewrite !minus_IZR, mult_IZR. field. lra.
Qed.

Lemma mw_t2theta_range_witness :
  0 < ssht_sampling_mw_t2theta 1 2 < 2 * PI
  /\ ssht_sampling_mw_t2theta (2 - 1) 2 = PI
  /\ ((1 < 2 - 1)%Z -> ssht_sampling_mw_t2theta 1 2 < PI)
  /\ ((2 - 1 < 1)%Z -> PI < ssht_sampling_mw_t2theta 1 2)
  /\ ssht_sampling_mw_t2theta (2 * 2 - 2 - 1) 2
     = 2 * PI - ssht_sampling_mw_t2theta 1 2.
Proof. apply (mw_t2theta_range 1 2); lia. Defined.

(** For a band-limit [L >= 1] both angles increase strictly with their
    index, and the colatitude of an index is the longitude of the same
    index plus half a step, [pi / (2L-1)]. *)
Theorem mw_angles_increasing (t t' L : Z) :
  (1 <= L)%Z -> (t < t')%Z ->
  ssht_sampling_mw_t2theta t L < ssht_sampling_mw_t2theta t' L
  /\ ssht_sampling_mw_p2phi t L < ssht_sampling_mw_p2phi t' L
  /\ ssht_sampling_mw_t2theta t L
     = ssht_sampling_mw_p2phi t L + PI / (2 * IZR L - 1).
Proof.
  intros HL Ht. rewrite !t2theta_exact, !p2phi_exact.
  assert (HLr : 1 <= IZR L) by (apply IZR_le; exact HL).
  apply IZR_lt in Ht. pose proof PI_RGT_0 as Hpi.
  assert (Hd : 0 < / (2 * IZR L - 1)) by (apply Rinv_0_lt_compat; lra).
  unfold Rdiv. split; [|split].
  - apply Rmult_lt_compat_r; [exact Hd|]. nra.
  - apply Rmult_lt_compat_r; [exact Hd|]. nra.
  - ring.
Qed.

Lemma mw_angles_increasing_witness :
  ssht_sampling_mw_t2theta 0 1 < ssht_sampling_mw_t2theta 1 1
  /\ ssht_sampling_mw_p2phi 0 1 < ssht_sampling_mw_p2phi 1 1
  /\ ssht_sampling_mw_t2theta 0 1
     = ssht_sampling_mw_p2phi 0 1 + PI / (2 * IZR 1 - 1).
Proof. apply (mw_angles_increasing 0 1 1); lia. Defined.

End Angles.

(** ** The range of the harmonic indices *)

(** For a band-limit [1 <= L <= 46340] (so that [L*L] is an [int]):
    the index of a degree [el <= L-1] and an order [-el <= m <= el] lies in
    [[0, L*L-1]]; and, in binary64, the degree and order recovered from an
    index in [[0, L*L-1]] satisfy [0 <= el <= L-1] and [-el <= m <= el]. *)
Theorem harmonic_index_range (L el m ind : Z) :
  1 <= L <= 46340 ->
  (0 <= el <= L - 1 -> - el <= m <= el ->
   0 <= ssht_sampling_elm2ind el m <= L * L - 1)
  /\ (0 <= ind <= L * L - 1 ->
      0 <= fst (ssht_sampling_ind2elm (D := B64.double) ind) <= L - 1
      /\ - fst (ssht_sampling_ind2elm (D := B64.double) ind)
         <= snd (ssht_sampling_ind2elm (D := B64.double) ind)
         <= fst (ssht_sampling_ind2elm (D := B64.double) ind)).
Proof.
  intros HL. split.
  - intros Hel Hm.
    assert (Hb : 0 <= el * el + el + m <= L * L - 1) by nia.
    rewrite elm2ind_exact
      by (unfold CInt.in_range, CInt.INT_MIN, CInt.INT_MAX; nia).
    exact Hb.
  - intros Hind.
    rewrite ind2elm_b64 by (unfold CInt.INT_MAX; nia). cbn [fst snd].
    pose proof (Z.sqrt_spec ind ltac:(lia)) as Hs. cbv zeta in Hs.
    pose proof (Z.sqrt_nonneg ind) as Hs0.
    split; [|lia]. split; [exact Hs0|].
    destruct (Z_le_gt_dec (Z.sqrt ind) (L - 1)) as [Hok|Hbad]; [exact Hok|].
    exfalso. nia.
Qed.

Lemma harmonic_index_range_witness :
  (0 <= 2 <= 3 - 1 -> - 2 <= 1 <= 2 ->
   0 <= ssht_sampling_elm2ind 2 1 <= 3 * 3 - 1)
  /\ (0 <= 7 <= 3 * 3 - 1 ->
      0 <= fst (ssht_sampling_ind2elm (D := B64.double) 7) <= 3 - 1
      /\ - fst (ssht_sampling_ind2elm (D := B64.double) 7)
         <= snd (ssht_sampling_ind2elm (D := B64.double) 7)
         <= fst (ssht_sampling_ind2elm (D := B64.double) 7)).
Proof. apply (harmonic_index_range 3 2 1 7). lia. Defined.

(** The index orders the pairs first by degree and then by order: of two
    valid pairs whose indices are [int]s, the one with the smaller degree,
    or with the same degree and the smaller order, has the smaller index;
    so two valid pairs with the same index are the same pair. *)
Theorem elm2ind_increasing (el m el' m' : Z) :
  0 <= el -> - el <= m <= el -> 0 <= el' -> - el' <= m' <= el' ->
  el' * el' + el' + m' <= CInt.INT_MAX ->
  (el < el' \/ (el = el' /\ m < m') ->
   ssht_sampling_elm2ind el m < ssht_sampling_elm2ind el' m')
  /\ (el * el + el + m <= CInt.INT_MAX ->
      ssht_sampling_elm2ind el m = ssht_sampling_elm2ind el' m' ->
      el = el' /\ m = m').
Proof.
  intros Hel Hm Hel' Hm' Hmax. unfold CInt.INT_MAX in *.
  rewrite (elm2ind_exact el' m')
    by (unfold CInt.in_range, CInt.INT_MIN, CInt.INT_MAX; nia).
  split.
  - intros Hlt.
    assert (Hord : el * el + el + m < el' * el' + el' + m') by nia.
    rewrite elm2ind_exact
      by (unfold CInt.in_range, CInt.INT_MIN, CInt.INT_MAX; nia).
    exact Hord.
  - intros Hmax0. rewrite elm2ind_exact
      by (unfold CInt.in_range, CInt.INT_MIN, CInt.INT_MAX; nia).
    intros Heq.
    assert (Hsame : el = el') by nia. subst el'. split; [reflexivity|lia].
Qed.

Lemma elm2ind_increasing_witness :
  (1 < 2 \/ (1 = 2 /\ 1 < -2) ->
   ssht_sampling_elm2ind 1 1 < ssht_sampling_elm2ind 2 (-2))
  /\ (1 * 1 + 1 + 1 <= CInt.INT_MAX ->
      ssht_sampling_elm2ind 1 1 = ssht_sampling_elm2ind 2 (-2) ->
      1 = 2 /\ 1 = -2).
Proof.
  apply (elm2ind_increasing 1 1 2 (-2)); unfold CInt.INT_MAX; lia.
Defined.
